(** * The canvas drawing module of the Spanish Pronunciation Coach

    A shallow embedding of [initCanvas] (src/app.js, lines 257-508; the two
    other copies of the file carry the same function) and of the drawing
    routines it closes over, followed by the properties of the module.

    Conventions of the embedding.

    - A JavaScript Number used for geometry is an exact rational ([Q]): every
      finite double is a rational, and the rounding error of [*], [/] and [+]
      on a coordinate, which moves it by an ulp, is not modelled.  The one
      product whose result is turned into an integer, the buffer size
      [Math.round(width * dpr)] of [resize], is the binary64 product
      ([JS.multiply]): there the rounding of the product decides the
      integer.  The illustration index is an integer ([Z]) and [%] is the
      truncating remainder [Z.rem].
    - [Math.PI], [Math.cos] and [Math.sin] belong to the host; they are
      variables of the section that holds the module.
    - The 2D context is written to and never read: every method call and
      every property assignment on [ctx] is appended to a log, oldest first.
      What a log does to the drawing state of the context, and what it
      paints, is given separately by [Canvas2D.exec].
    - The closure variables of [initCanvas] ([dpr], [hintText],
      [currentImage]) and the fields of the canvas element are threaded in a
      state monad.

    The scripts of the page around the module (lines 5-253: the handler of
    DOMContentLoaded, [initVideo], [initSpeech] and [initApp]) are embedded
    as well: the fields of the page they read and write are records, a
    handler is a function on them, and a handler that can throw returns an
    [outcome].  Of [initVideo], the handlers of the transport (play, pause,
    stop, seek) act on the media element and on the label of the play
    button; of them only the change of the label is kept, next to the time
    display, the first load and the quiz. *)

From Stdlib Require Import ZArith QArith Qround Qminmax Qfield Qabs Qpower.
From Stdlib Require Import String List Bool Lia Lqa.
From Stdlib Require Ascii Decimal DecimalString DecimalZ DecimalPos.
Import ListNotations.

Open Scope string_scope.
Open Scope list_scope.
Open Scope Q_scope.

(** ** JavaScript values and the [Math] functions that are arithmetic *)

Module JS.

(** The argument of [writeText]: a string, [null], or [undefined] (the
    argument is absent). *)
Inductive value : Type :=
| undefined
| null
| str (s : string).

(** [s] is falsy exactly when it is the empty string. *)
Definition truthy_string (s : string) : bool :=
  negb (String.eqb s "").

(** [v || d] for a string default. *)
Definition or_string (v : value) (d : string) : string :=
  match v with
  | str s => if truthy_string s then s else d
  | undefined | null => d
  end.

(** [v || d] for a number that may be undefined; [0] is falsy. *)
Definition or_number (v : option Q) (d : Q) : Q :=
  match v with
  | Some q => if Qeq_bool q 0 then d else q
  | None => d
  end.

(** [Math.floor]. *)
Definition Math_floor (x : Q) : Q := inject_Z (Qfloor x).

(** [Math.round]: the nearest integer, a tie going towards +infinity. *)
Definition Math_round (x : Q) : Q := inject_Z (Qfloor (x + 0.5)).

Definition Math_min (x y : Q) : Q := Qmin x y.
Definition Math_max (x y : Q) : Q := Qmax x y.

(** The exponent of a positive number: the [e] with 2^e <= x < 2^(e+1).
    The difference of the two bit lengths is [e] or [e + 1]. *)
Definition ilog2 (x : Q) : Z :=
  let e := (Z.log2 (Qnum x) - Z.log2 (Zpos (Qden x)))%Z in
  if Qle_bool (2 ^ e) x then e else (e - 1)%Z.

(** The nearest integer, a tie going to the even one. *)
Definition round_half_even (m : Q) : Z :=
  let f := Qfloor m in
  match Qcompare (m - inject_Z f) (1 # 2) with
  | Lt => f
  | Gt => (f + 1)%Z
  | Eq => if Z.even f then f else (f + 1)%Z
  end.

(** The binary64 number nearest to [x], a tie going to the even
    significand: 53 bits at the exponent of [x], and at the exponent -1022
    below it (the subnormal numbers).  A magnitude of 2^1024 and more, which
    a double holds as an infinity, is not modelled. *)
Definition binary64 (x : Q) : Q :=
  if Qeq_bool x 0 then 0
  else
    let e := Z.max (ilog2 (Qabs x)) (-1022) in
    let ulp := 2 ^ (e - 52) in
    inject_Z (round_half_even (x / ulp)) * ulp.

(** [x * y] on two doubles: the exact product, rounded to binary64. *)
Definition multiply (x y : Q) : Q := binary64 (x * y).

(** [x / y] on two doubles, [y] not zero: the exact quotient, rounded to
    binary64. *)
Definition divide (x y : Q) : Q := binary64 (x / y).

(** What a [throw] carries. *)
Inductive exn : Type :=
| Error (message : string)
| TypeError.

End JS.

(** ** The calls made on the 2D context *)

Module Ctx.

Inductive gradient_kind : Type :=
| linear (x0 y0 x1 y1 : Q)
| radial (x0 y0 r0 x1 y1 r1 : Q).

(** A [CanvasGradient]: how it was created and the colour stops added to
    it, in the order of the [addColorStop] calls. *)
Record gradient : Type := mkGradient {
  kind : gradient_kind;
  stops : list (Q * string)
}.

Definition createLinearGradient (x0 y0 x1 y1 : Q) : gradient :=
  mkGradient (linear x0 y0 x1 y1) [].

Definition createRadialGradient (x0 y0 r0 x1 y1 r1 : Q) : gradient :=
  mkGradient (radial x0 y0 r0 x1 y1 r1) [].

Definition addColorStop (offset : Q) (colour : string) (g : gradient)
  : gradient :=
  mkGradient (kind g) (stops g ++ [(offset, colour)]).

Inductive style : Type :=
| colour (css : string)
| gradient_style (g : gradient).

(** The template string [`${weight} ${size}px ${family}`], kept in parts. *)
Record font : Type := mkFont {
  weight : string;
  size_px : Q;
  family : string
}.

Inductive call : Type :=
(* drawing state *)
| save
| restore
| setTransform (a b c d e f : Q)
| translate (x y : Q)
| rotate (angle : Q)
| set_fillStyle (s : style)
| set_strokeStyle (s : style)
| set_lineWidth (w : Q)
| set_lineCap (v : string)
| set_lineJoin (v : string)
| set_font (f : font)
| set_textAlign (v : string)
| set_textBaseline (v : string)
(* path *)
| beginPath
| moveTo (x y : Q)
| lineTo (x y : Q)
| quadraticCurveTo (cpx cpy x y : Q)
| arc (x y r startAngle endAngle : Q)
| ellipse (x y rx ry rotation startAngle endAngle : Q)
| closePath
(* painting *)
| fill
| stroke
| fillText (text : string) (x y : Q)
| clearRect (x y w h : Q).

End Ctx.

Import JS Ctx.

(** ** State *)

(** A CSS length written by the template string [`${n}px`]. *)
Inductive css_length : Type :=
| px (n : Q).

(** The browser's side: the window, the canvas element and the log of the
    calls made on its 2D context.  [clientWidth], [clientHeight] and
    [devicePixelRatio] are set by the host and only read by the module.
    [canvas_width] and [canvas_height] hold the number assigned: the
    element keeps an unsigned long, which is the number itself for a whole
    size from 0 to 2^31 - 1, as a layout at the scale of a display
    gives. *)
Record Host : Type := mkHost {
  window_devicePixelRatio : option Q;
  canvas_clientWidth : Q;
  canvas_clientHeight : Q;
  canvas_width : Q;
  canvas_height : Q;
  canvas_style_width : option css_length;
  canvas_style_height : option css_length;
  ctx_calls : list call
}.

(** The host together with the closure variables of [initCanvas]. *)
Record State : Type := mkState {
  host : Host;
  dpr : Q;
  hintText : string;
  currentImage : Z
}.

Definition M (A : Type) : Type := State -> A * State.

Definition ret {A : Type} (a : A) : M A := fun s => (a, s).

Definition bind {A B : Type} (m : M A) (k : A -> M B) : M B :=
  fun s => let (a, s') := m s in k a s'.

Definition exec {A : Type} (m : M A) (s : State) : State := snd (m s).

Definition get {A : Type} (f : State -> A) : M A := fun s => (f s, s).

Definition modify (f : State -> State) : M unit := fun s => (tt, f s).

Declare Scope js_scope.
Delimit Scope js_scope with js.
Notation "x <- m ;; k" := (bind m (fun x => k))
  (at level 61, m at next level, right associativity) : js_scope.
Notation "m ;; k" := (bind m (fun _ => k))
  (at level 61, right associativity) : js_scope.
Notation "'when' b 'then' m" := (if b then m else ret tt)
  (at level 60, b at level 9) : js_scope.
Open Scope js_scope.

(** The updates take the record apart, so that an update of a state that is
    not yet known stays a single term. *)
Definition with_host (f : Host -> Host) (s : State) : State :=
  let 'mkState h d t i := s in mkState (f h) d t i.

Definition log_call (c : call) (h : Host) : Host :=
  let 'mkHost r cw ch bw bh sw sh l := h in
  mkHost r cw ch bw bh sw sh (l ++ [c]).

(** [ctx.m(...)] or [ctx.p = v]. *)
Definition ctx (c : call) : M unit := modify (with_host (log_call c)).

Definition set_canvas_width (v : Q) : M unit :=
  modify (with_host (fun h =>
    let 'mkHost r cw ch _ bh sw sh l := h in
    mkHost r cw ch v bh sw sh l)).

Definition set_canvas_height (v : Q) : M unit :=
  modify (with_host (fun h =>
    let 'mkHost r cw ch bw _ sw sh l := h in
    mkHost r cw ch bw v sw sh l)).

Definition set_canvas_style_width (v : css_length) : M unit :=
  modify (with_host (fun h =>
    let 'mkHost r cw ch bw bh _ sh l := h in
    mkHost r cw ch bw bh (Some v) sh l)).

Definition set_canvas_style_height (v : css_length) : M unit :=
  modify (with_host (fun h =>
    let 'mkHost r cw ch bw bh sw _ l := h in
    mkHost r cw ch bw bh sw (Some v) l)).

Definition set_dpr (v : Q) : M unit :=
  modify (fun s => let 'mkState h _ t i := s in mkState h v t i).

Definition set_hintText (v : string) : M unit :=
  modify (fun s => let 'mkState h d _ i := s in mkState h d v i).

Definition set_currentImage (v : Z) : M unit :=
  modify (fun s => let 'mkState h d t _ := s in mkState h d t v).

(** [for (let i = lo; i < lo + n; i++) body(i)]. *)
Fixpoint for_count (n : nat) (i : Z) (body : Z -> M unit) : M unit :=
  match n with
  | O => ret tt
  | S n' => body i ;; for_count n' (i + 1)%Z body
  end.

(** [for (let i = lo; i < hi; i++) body(i)]. *)
Definition for_range (lo hi : Z) (body : Z -> M unit) : M unit :=
  for_count (Z.to_nat (hi - lo)) lo body.

(** ** The calls a computation adds to the log *)

Definition clear_calls (h : Host) : Host :=
  let 'mkHost r cw ch bw bh sw sh _ := h in
  mkHost r cw ch bw bh sw sh [].

Definition log_calls (l : list call) (h : Host) : Host :=
  let 'mkHost r cw ch bw bh sw sh l0 := h in
  mkHost r cw ch bw bh sw sh (l0 ++ l).

(** The calls [m] makes on the context when it is run from [s]. *)
Definition emitted {A : Type} (m : M A) (s : State) : list call :=
  ctx_calls (host (exec m (with_host clear_calls s))).

(** ** What the calls do to a 2D context

    The part of the Canvas 2D API that the module relies on, as the HTML
    standard describes it: the drawing state with its [save] / [restore]
    stack, the current transformation matrix, the current path, and the
    painting calls, which use the drawing state in force when they are
    made.  A browser also resets the context of a canvas when the size of
    its buffer is assigned; that is no call on the context and is not in
    the log (see [in_session]). *)

Module Canvas2D.

(** The matrix of [setTransform(a, b, c, d, e, f)]:
    (x, y) goes to (a x + c y + e, b x + d y + f). *)
Record matrix : Type := mkMatrix {
  mat_a : Q; mat_b : Q; mat_c : Q; mat_d : Q; mat_e : Q; mat_f : Q
}.

Definition scaling (k : Q) : matrix := mkMatrix k 0 0 k 0 0.

Definition apply (m : matrix) (p : Q * Q) : Q * Q :=
  (mat_a m * fst p + mat_c m * snd p + mat_e m,
   mat_b m * fst p + mat_d m * snd p + mat_f m).

(** [compose m n] applies [n] first and [m] second. *)
Definition compose (m n : matrix) : matrix :=
  mkMatrix (mat_a m * mat_a n + mat_c m * mat_b n)
           (mat_b m * mat_a n + mat_d m * mat_b n)
           (mat_a m * mat_c n + mat_c m * mat_d n)
           (mat_b m * mat_c n + mat_d m * mat_d n)
           (mat_a m * mat_e n + mat_c m * mat_f n + mat_e m)
           (mat_b m * mat_e n + mat_d m * mat_f n + mat_f m).

(** The determinant: the area, in physical pixels, of the image of a unit
    square. *)
Definition det (m : matrix) : Q := mat_a m * mat_d m - mat_b m * mat_c m.

Record drawing_state : Type := mkDrawingState {
  transform : matrix;
  fillStyle : style;
  strokeStyle : style;
  lineWidth : Q;
  lineCap : string;
  lineJoin : string;
  font : Ctx.font;
  textAlign : string;
  textBaseline : string
}.

(** A segment of the current path with the matrix in force when it was
    added. *)
Definition path : Type := list (call * matrix).

(** What has been painted: the call and the drawing state it used. *)
Inductive paint : Type :=
| cleared (x y w h : Q) (ds : drawing_state)
| filled (p : path) (ds : drawing_state)
| stroked (p : path) (ds : drawing_state)
| text_drawn (text : string) (x y : Q) (ds : drawing_state).

Record context : Type := mkContext {
  cur : drawing_state;
  saved : list drawing_state;
  current_path : path;
  painted : list paint
}.

Definition update (f : drawing_state -> drawing_state) (x : context)
  : context :=
  let 'mkContext ds st p out := x in mkContext (f ds) st p out.

Definition add_segment (c : call) (x : context) : context :=
  let 'mkContext ds st p out := x in
  mkContext ds st (p ++ [(c, transform ds)]) out.

Definition add_paint (p : drawing_state -> path -> paint) (x : context)
  : context :=
  let 'mkContext ds st pth out := x in
  mkContext ds st pth (out ++ [p ds pth]).

Definition with_transform (f : matrix -> matrix) (ds : drawing_state)
  : drawing_state :=
  let 'mkDrawingState m fs ss lw lc lj fnt ta tb := ds in
  mkDrawingState (f m) fs ss lw lc lj fnt ta tb.

Section Semantics.

Variable cos sin : Q -> Q.

Definition exec (c : call) (x : context) : context :=
  match c with
  | save =>
      let 'mkContext ds st p out := x in mkContext ds (ds :: st) p out
  | restore =>
      let 'mkContext ds st p out := x in
      match st with
      | [] => x
      | ds' :: rest => mkContext ds' rest p out
      end
  | setTransform a b c d e f =>
      update (with_transform (fun _ => mkMatrix a b c d e f)) x
  | translate tx ty =>
      update (with_transform (fun m =>
        compose m (mkMatrix 1 0 0 1 tx ty))) x
  | rotate angle =>
      update (with_transform (fun m =>
        compose m (mkMatrix (cos angle) (sin angle)
                     (- sin angle) (cos angle) 0 0))) x
  | set_fillStyle v =>
      update (fun ds =>
        let 'mkDrawingState m _ ss lw lc lj fnt ta tb := ds in
        mkDrawingState m v ss lw lc lj fnt ta tb) x
  | set_strokeStyle v =>
      update (fun ds =>
        let 'mkDrawingState m fs _ lw lc lj fnt ta tb := ds in
        mkDrawingState m fs v lw lc lj fnt ta tb) x
  | set_lineWidth v =>
      update (fun ds =>
        let 'mkDrawingState m fs ss _ lc lj fnt ta tb := ds in
        mkDrawingState m fs ss v lc lj fnt ta tb) x
  | set_lineCap v =>
      update (fun ds =>
        let 'mkDrawingState m fs ss lw _ lj fnt ta tb := ds in
        mkDrawingState m fs ss lw v lj fnt ta tb) x
  | set_lineJoin v =>
      update (fun ds =>
        let 'mkDrawingState m fs ss lw lc _ fnt ta tb := ds in
        mkDrawingState m fs ss lw lc v fnt ta tb) x
  | set_font v =>
      update (fun ds =>
        let 'mkDrawingState m fs ss lw lc lj _ ta tb := ds in
        mkDrawingState m fs ss lw lc lj v ta tb) x
  | set_textAlign v =>
      update (fun ds =>
        let 'mkDrawingState m fs ss lw lc lj fnt _ tb := ds in
        mkDrawingState m fs ss lw lc lj fnt v tb) x
  | set_textBaseline v =>
      update (fun ds =>
        let 'mkDrawingState m fs ss lw lc lj fnt ta _ := ds in
        mkDrawingState m fs ss lw lc lj fnt ta v) x
  | beginPath =>
      let 'mkContext ds st _ out := x in mkContext ds st [] out
  | moveTo _ _ | lineTo _ _ | quadraticCurveTo _ _ _ _
  | arc _ _ _ _ _ | ellipse _ _ _ _ _ _ _ | closePath =>
      add_segment c x
  | fill => add_paint (fun ds p => filled p ds) x
  | stroke => add_paint (fun ds p => stroked p ds) x
  | fillText text tx ty => add_paint (fun ds _ => text_drawn text tx ty ds) x
  | clearRect rx ry rw rh =>
      add_paint (fun ds _ => cleared rx ry rw rh ds) x
  end.

(** The calls of a log, oldest first. *)
Definition run (l : list call) (x : context) : context :=
  fold_left (fun x c => exec c x) l x.

End Semantics.

(** A paint that fills or strokes a path. *)
Definition is_shape (p : paint) : Prop :=
  match p with
  | filled _ _ | stroked _ _ => True
  | cleared _ _ _ _ _ | text_drawn _ _ _ _ => False
  end.

(** The texts painted so far: each with its anchor point and the size of
    its font. *)
Definition texts (x : context) : list (string * Q * Q * Q) :=
  flat_map (fun p =>
              match p with
              | text_drawn t tx ty ds => [(t, tx, ty, size_px (font ds))]
              | _ => []
              end)
           (painted x).

(** The rectangle a [cleared] paint covers, in physical pixels: the images
    of its top-left and bottom-right corners. *)
Definition cleared_box (ds : drawing_state) (x y w h : Q)
  : (Q * Q) * (Q * Q) :=
  (apply (transform ds) (x, y), apply (transform ds) (x + w, y + h)).

End Canvas2D.

(** ** Strings and numbers of the page scripts

    [initVideo], [initSpeech] and [initApp] (src/app.js, lines 23-253) work
    on strings.  A string is a sequence of code units below 256 (ASCII and
    Latin-1), which covers the words and answers of the page; on such
    strings [trim] and [toLowerCase] are the ones of ECMAScript. *)

Module Str.

(** White space and line terminators below 256: TAB, LF, VT, FF, CR, SP and
    NBSP. *)
Definition is_whitespace (c : Ascii.ascii) : bool :=
  let n := Ascii.N_of_ascii c in
  ((9 <=? n) && (n <=? 13) || (n =? 32) || (n =? 160))%N.

Fixpoint all_whitespace (s : string) : bool :=
  match s with
  | EmptyString => true
  | String c s' => is_whitespace c && all_whitespace s'
  end.

Fixpoint trimStart (s : string) : string :=
  match s with
  | EmptyString => EmptyString
  | String c s' => if is_whitespace c then trimStart s' else s
  end.

Fixpoint trimEnd (s : string) : string :=
  match s with
  | EmptyString => EmptyString
  | String c s' =>
      match trimEnd s' with
      | EmptyString => if is_whitespace c then EmptyString
                       else String c EmptyString
      | String c' t => String c (String c' t)
      end
  end.

(** [s.trim()]. *)
Definition trim (s : string) : string := trimEnd (trimStart s).

(** The upper-case letters below 256 are A-Z and the Latin-1 letters from
    192 to 222 without the multiplication sign 215; each is 32 below its
    lower-case letter. *)
Definition lower_char (c : Ascii.ascii) : Ascii.ascii :=
  let n := Ascii.N_of_ascii c in
  if ((65 <=? n) && (n <=? 90)
      || (192 <=? n) && (n <=? 222) && negb (n =? 215))%N
  then Ascii.ascii_of_N (n + 32) else c.

(** [s.toLowerCase()]. *)
Fixpoint toLowerCase (s : string) : string :=
  match s with
  | EmptyString => EmptyString
  | String c s' => String (lower_char c) (toLowerCase s')
  end.

(** The double quote, as a one-character string. *)
Definition quote : string := String (Ascii.ascii_of_N 34) EmptyString.

(** [a + b] on strings. *)
Definition cat (a b : string) : string := String.append a b.

End Str.

Module Num.

(** The integer part, towards zero. *)
Definition trunc (x : Q) : Z :=
  if Qle_bool 0 x then Qfloor x else Qceiling x.

(** [x % y] on finite numbers, [y] not zero: the remainder has the sign of
    [x]. *)
Definition rem (x y : Q) : Q := x - y * inject_Z (trunc (x / y)).

(** [x < y]. *)
Definition lt (x y : Q) : bool := negb (Qle_bool y x).

(** The decimal digits of an integer, with a minus sign when negative. *)
Definition Z_toString (z : Z) : string :=
  DecimalString.NilZero.string_of_int (Z.to_int z).

(** [String(x)] for a number whose value is an integer, which is all that
    the page prints: the decimal digits.  These are the digits JavaScript
    prints for a whole number up to 2^53; above, it prints the shortest
    digits that give the double back and, from 10^21 on, an exponent,
    which is no media time. *)
Definition toString (x : Q) : string := Z_toString (Qfloor x).

End Num.

(** How a handler completes. *)
Inductive outcome (A : Type) : Type :=
| ok (a : A)
| threw (e : exn).

Arguments ok {A} a.
Arguments threw {A} e.

(** ** The video quiz: [initVideo] *)

Module Video.

Record item : Type := mkItem {
  video : string;
  answer : string
}.

Definition videoItems : list item :=
  [mkItem "media/comer.mp4" "comer";
   mkItem "media/beber.mp4" "beber";
   mkItem "media/dormir.mp4" "dormir"].

(** [videoItems[i]]: [undefined] outside the array. *)
Definition item_at (i : Z) : option item :=
  if (i <? 0)%Z then None else nth_error videoItems (Z.to_nat i).

(** Convert seconds to MM:SS format.  The quotient is the exact one: on a
    double below 2^53 its floor is that of the binary64 quotient
    ([floor_quotient_60]), and [%] is exact on doubles. *)
Definition formatTime (seconds : Q) : string :=
  let mins := Math_floor (seconds / 60) in
  let secs := Math_floor (Num.rem seconds 60) in
  Str.cat (Str.cat (Str.cat (Num.toString mins) ":")
             (if Num.lt secs 10 then "0" else ""))
    (Num.toString secs).

(** Update time display with current/total time: the text written to the
    time display; [duration] is [None] while the browser reports NaN. *)
Definition updateTime (currentTime : Q) (duration : option Q) : string :=
  let current := formatTime currentTime in
  let duration := formatTime (or_number duration 0) in
  Str.cat (Str.cat current " / ") duration.

(** The global [currentVideoIndex] and the fields of the page that the
    check and next handlers read and write.  [video_loads] counts the calls
    of [video.load()]. *)
Record Quiz : Type := mkQuiz {
  currentVideoIndex : Z;
  video_src : string;
  video_loads : nat;
  playBtn_textContent : string;
  answerInput_value : string;
  resultDiv_textContent : string;
  resultDiv_className : string
}.

(** Load initial video (lines 100-101); reading a field of [undefined]
    throws. *)
Definition load_initial (q : Quiz) : outcome Quiz :=
  let 'mkQuiz i _ n b a t c := q in
  match item_at i with
  | None => threw TypeError
  | Some it => ok (mkQuiz i (video it) (S n) b a t c)
  end.

(** Check if answer is correct *)
Definition check_click (q : Quiz) : outcome Quiz :=
  let 'mkQuiz i v n b a _ _ := q in
  let userAnswer := Str.toLowerCase (Str.trim a) in
  match item_at i with
  | None => threw TypeError
  | Some it =>
      let correctAnswer := Str.toLowerCase (answer it) in
      if String.eqb userAnswer correctAnswer
      then ok (mkQuiz i v n b a
                 (Str.cat (Str.cat (Str.cat "Correct! The answer is "
                                      Str.quote) correctAnswer) Str.quote)
                 "result correct")
      else ok (mkQuiz i v n b a
                 (Str.cat (Str.cat (Str.cat (Str.cat (Str.cat (Str.cat
                    "Incorrect. You wrote: " Str.quote) userAnswer)
                    Str.quote) (Str.cat " - Correct: " Str.quote))
                    correctAnswer) Str.quote)
                 "result incorrect")
  end.

(** Next video button *)
Definition next_click (q : Quiz) : outcome Quiz :=
  let 'mkQuiz i _ n _ _ _ _ := q in
  let i := Z.rem (i + 1) (Z.of_nat (length videoItems)) in
  match item_at i with
  | None => threw TypeError
  | Some it => ok (mkQuiz i (video it) (S n) "Play" "" "" "result")
  end.

(** The user edits the answer field. *)
Definition type_answer (text : string) (q : Quiz) : Quiz :=
  let 'mkQuiz i v n b _ t c := q in mkQuiz i v n b text t c.

(** The transport handlers (play, stop, and the media events) write the
    label of the play button; of the fields kept here they touch no other. *)
Definition set_play_label (label : string) (q : Quiz) : Quiz :=
  let 'mkQuiz i v n _ a t c := q in mkQuiz i v n label a t c.

(** The quiz once [initVideo] has run, under the clicks and edits that
    follow.  The script starts with [currentVideoIndex = 0]. *)
Inductive reachable : Quiz -> Prop :=
| reach_init (q q' : Quiz) :
    currentVideoIndex q = 0%Z -> load_initial q = ok q' -> reachable q'
| reach_type (text : string) (q : Quiz) :
    reachable q -> reachable (type_answer text q)
| reach_label (label : string) (q : Quiz) :
    reachable q -> reachable (set_play_label label q)
| reach_check (q q' : Quiz) :
    reachable q -> check_click q = ok q' -> reachable q'
| reach_next (q q' : Quiz) :
    reachable q -> next_click q = ok q' -> reachable q'.

(** [n] clicks on the next button in a row. *)
Fixpoint next_times (n : nat) (q : Quiz) : outcome Quiz :=
  match n with
  | O => ok q
  | S n' => match next_click q with
            | ok q' => next_times n' q'
            | threw e => threw e
            end
  end.

(** The class the result area gets when the answer field holds [text]. *)
Definition verdict_for (text : string) (q : Quiz) : option string :=
  match check_click (type_answer text q) with
  | ok q' => Some (resultDiv_className q')
  | threw _ => None
  end.

End Video.

(** ** Pronunciation practice: [initSpeech] *)

Module Speech.

(** [á] is the code unit 225. *)
Definition spanishWords : list string :=
  ["manzana"; Str.cat "pl" (String (Ascii.ascii_of_N 225) "tano"); "naranja";
   "hola"; "gracias"; "agua"; "libro"; "casa"].

(** [spanishWords[i]]. *)
Definition word_at (i : Z) : option string :=
  if (i <? 0)%Z then None else nth_error spanishWords (Z.to_nat i).

Record Recognition : Type := mkRecognition {
  lang : string;
  continuous : bool;
  interimResults : bool
}.

Record Utterance : Type := mkUtterance {
  utterance_text : string;
  utterance_lang : string;
  utterance_rate : Q
}.

(** The global [currentWordIndex], the elements of the panel, the
    recognition object ([None] is [null]), the number of calls of
    [recognition.start()] and the utterances handed to [synth.speak]. *)
Record Panel : Type := mkPanel {
  currentWordIndex : Z;
  wordDisplay_textContent : string;
  status_textContent : string;
  status_className : string;
  result_textContent : string;
  result_className : string;
  recognition : option Recognition;
  starts : nat;
  spoken : list Utterance
}.

(** Speech Recognition setup; [supported] tells whether
    [window.SpeechRecognition || window.webkitSpeechRecognition] is there. *)
Definition setup (supported : bool) (p : Panel) : Panel :=
  let 'mkPanel i w st sc rt rc _ n u := p in
  mkPanel i w st sc rt rc
    (if supported then Some (mkRecognition "es-ES" false false) else None)
    n u.

(** When recognition starts listening *)
Definition onstart (p : Panel) : Panel :=
  let 'mkPanel i w _ _ rt rc r n u := p in
  mkPanel i w "Listening... Speak now!" "status listening" rt rc r n u.

(** When speech is recognized; [transcript] is
    [event.results[0][0].transcript]. *)
Definition onresult (transcript : string) (p : Panel) : Panel :=
  let 'mkPanel i w _ _ _ _ r n u := p in
  let spoken_ := Str.toLowerCase transcript in
  let target := Str.toLowerCase w in
  if String.eqb spoken_ target
  then mkPanel i w "" "status"
         (Str.cat (Str.cat (Str.cat "Correct! You said: " Str.quote)
                     spoken_) Str.quote)
         "result correct" r n u
  else mkPanel i w "" "status"
         (Str.cat (Str.cat (Str.cat (Str.cat (Str.cat (Str.cat
            "You said: " Str.quote) spoken_) Str.quote)
            (Str.cat " - Expected: " Str.quote)) target) Str.quote)
         "result incorrect" r n u.

(** When error occurs *)
Definition onerror (p : Panel) : Panel :=
  let 'mkPanel i w _ _ rt rc r n u := p in
  mkPanel i w "Error. Please try again." "status" rt rc r n u.

(** When recognition ends (timeout or finished) *)
Definition onend (p : Panel) : Panel :=
  let 'mkPanel i w st sc rt rc r n u := p in
  if String.eqb st "Listening... Speak now!"
  then mkPanel i w "Did not hear anything. Try again." "status" rt rc r n u
  else p.

(** Text-to-Speech: Hear the word *)
Definition hear_click (p : Panel) : Panel :=
  let 'mkPanel i w st sc rt rc r n u := p in
  mkPanel i w st sc rt rc r n (u ++ [mkUtterance w "es-ES" 0.8]).

(** Speech Recognition: Listen to user *)
Definition speak_click (p : Panel) : Panel :=
  let 'mkPanel i w st sc rt rc r n u := p in
  match r with
  | Some _ => mkPanel i w st sc "" "result" r (S n) u
  | None =>
      mkPanel i w "Speech recognition not supported in this browser." sc
        rt rc r n u
  end.

(** Next word button.  Outside the array the lookup is [undefined], which
    the nullable [textContent] takes as the empty string. *)
Definition next_word_click (p : Panel) : Panel :=
  let 'mkPanel i _ _ _ _ _ r n u := p in
  let i := Z.rem (i + 1) (Z.of_nat (length spanishWords)) in
  let w := match word_at i with Some w => w | None => "" end in
  mkPanel i w "" "status" "" "result" r n u.

(** What happens to the panel: the three clicks, and the callbacks of the
    recognition object. *)
Inductive event : Type :=
| click_hear
| click_speak
| click_next_word
| recognition_start
| recognition_result (transcript : string)
| recognition_error
| recognition_end.

(** A callback fires only when there is a recognition object. *)
Definition step (ev : event) (p : Panel) : Panel :=
  match ev with
  | click_hear => hear_click p
  | click_speak => speak_click p
  | click_next_word => next_word_click p
  | recognition_start =>
      match recognition p with Some _ => onstart p | None => p end
  | recognition_result t =>
      match recognition p with Some _ => onresult t p | None => p end
  | recognition_error =>
      match recognition p with Some _ => onerror p | None => p end
  | recognition_end =>
      match recognition p with Some _ => onend p | None => p end
  end.

Definition run (evs : list event) (p : Panel) : Panel :=
  fold_left (fun p ev => step ev p) evs p.

End Speech.

(** ** The page as a whole *)

(** The text field and the two buttons of the sketch. *)
Record Sketch : Type := mkSketch {
  textInput_value : string;
  nextBtn_disabled : bool;
  writeBtn_disabled : bool
}.

(** The page: its three parts and the listeners registered so far, each as
    the id of its target and the type of the event.  Every element the
    scripts look up exists, except perhaps the canvas. *)
Record Page : Type := mkPage {
  sketch : Sketch;
  speech : Speech.Panel;
  quiz : Video.Quiz;
  listeners : list (string * string)
}.

Definition addEventListener (target type : string) (p : Page) : Page :=
  let 'mkPage sk sp qz ls := p in mkPage sk sp qz (ls ++ [(target, type)]).

(** [initSpeech]: the recognition object and the three click listeners. *)
Definition initSpeech (supported : bool) (p : Page) : Page :=
  let 'mkPage sk sp qz ls := p in
  let p := mkPage sk (Speech.setup supported sp) qz ls in
  let p := addEventListener "hear-btn" "click" p in
  let p := addEventListener "speak-btn" "click" p in
  addEventListener "next-word-btn" "click" p.

(** How an initialisation of the page completes; when it throws, the page
    is as the throw finds it. *)
Inductive page_outcome : Type :=
| page_ok (p : Page)
| page_threw (e : exn) (p : Page).

(** [initVideo]: the listeners of the transport, the first video, and the
    listeners of the check and next buttons. *)
Definition initVideo (p : Page) : page_outcome :=
  let p := addEventListener "video-play" "click" p in
  let p := addEventListener "video-stop" "click" p in
  let p := addEventListener "prompt-video" "timeupdate" p in
  let p := addEventListener "prompt-video" "loadedmetadata" p in
  let p := addEventListener "prompt-video" "ended" p in
  let p := addEventListener "prompt-video" "play" p in
  let p := addEventListener "prompt-video" "pause" p in
  let p := addEventListener "video-progress" "input" p in
  match Video.load_initial (quiz p) with
  | threw e => page_threw e p
  | ok qz' =>
      let 'mkPage sk sp _ ls := p in
      let p := mkPage sk sp qz' ls in
      let p := addEventListener "video-check" "click" p in
      page_ok (addEventListener "video-next" "click" p)
  end.

(** ** Notions used by the properties of the page scripts *)

(** The two characters [formatTime] prints for the seconds. *)
Definition seconds_field (s : Z) : string :=
  Str.cat (if (s <? 10)%Z then "0" else "") (Num.Z_toString s).

(** The video in the player is the one the index points at. *)
Definition quiz_ok (q : Video.Quiz) : Prop :=
  exists it, Video.item_at (Video.currentVideoIndex q) = Some it /\
             Video.video_src q = Video.video it.

(** The displayed word is the one the index points at. *)
Definition shows_word (p : Speech.Panel) : Prop :=
  Speech.word_at (Speech.currentWordIndex p) =
  Some (Speech.wordDisplay_textContent p).

Definition word_index_ok (p : Speech.Panel) : Prop :=
  (0 <= Speech.currentWordIndex p < 8)%Z.

(** ** A sample host

    Scenario A of the specification: a canvas laid out at 400 by 300 on a
    display of scale factor 2, whose buffer still has the default size of 300
    by 150 and on whose context nothing has been called.  The host's [Math]
    is given by the first terms of the Taylor series. *)

Definition sample_host : Host :=
  mkHost (Some 2) 400 300 300 150 None None [].

Definition sample_PI : Q := 3.141592653589793.

Definition sample_cos (x : Q) : Q :=
  1 - x * x / 2 + x * x * x * x / 24.

Definition sample_sin (x : Q) : Q :=
  x - x * x * x / 6 + x * x * x * x * x / 120.

(** A context as the browser creates it. *)
Definition fresh_context : Canvas2D.context :=
  Canvas2D.mkContext
    (Canvas2D.mkDrawingState (Canvas2D.scaling 1) (colour "#000000")
       (colour "#000000") 1 "butt" "miter"
       (mkFont "normal" 10 "sans-serif") "start" "alphabetic")
    [] [] [].

(** The module on that host once it has been constructed and
    [writeText('hola')] has been called, the log set aside. *)
Definition sample_state : State :=
  mkState (mkHost (Some 2) 400 300 800 600 (Some (px 400)) (Some (px 300)) [])
    2 "hola" 0.

(** The same environment with another past: the buffer, the style and the
    log are those an earlier run has left. *)
Definition used_host : Host :=
  mkHost (Some 2) 400 300 800 600 (Some (px 400)) (Some (px 300))
    [set_lineCap "round"; clearRect 0 0 400 300].

(** The fresh context after [setTransform(2, 0, 0, 2, 0, 0)]. *)
Definition sample_context : Canvas2D.context :=
  Canvas2D.mkContext
    (Canvas2D.mkDrawingState (Canvas2D.scaling 2) (colour "#000000")
       (colour "#000000") 1 "butt" "miter"
       (mkFont "normal" 10 "sans-serif") "start" "alphabetic")
    [] [] [].

(** ** A sample page

    A page as it may be before the scripts run: the two buttons of the
    sketch disabled, the first word on display, nothing typed and no
    listener; the quiz once the first video is loaded and the user has
    typed an answer. *)

Definition sample_quiz : Video.Quiz :=
  Video.mkQuiz 0 "" 0 "Play" "" "" "".

Definition sample_panel : Speech.Panel :=
  Speech.mkPanel 0 "manzana" "" "status" "" "result" None 0 [].

Definition sample_page : Page :=
  mkPage (mkSketch "" true true) sample_panel sample_quiz [].

Definition sample_answered : Video.Quiz :=
  Video.type_answer " Comer "
    (Video.mkQuiz 0 "media/comer.mp4" 1 "Play" "" "" "").

(** ** The module *)

Section InitCanvas.

Variable Math_PI : Q.
Variable Math_cos Math_sin : Q -> Q.

(** Helper: draws rounded rectangle *)
Definition roundRect (x y width height radius : Q) : M unit :=
  ctx beginPath ;;
  ctx (moveTo (x + radius) y) ;;
  ctx (lineTo (x + width - radius) y) ;;
  ctx (quadraticCurveTo (x + width) y (x + width) (y + radius)) ;;
  ctx (lineTo (x + width) (y + height - radius)) ;;
  ctx (quadraticCurveTo (x + width) (y + height)
         (x + width - radius) (y + height)) ;;
  ctx (lineTo (x + radius) (y + height)) ;;
  ctx (quadraticCurveTo x (y + height) x (y + height - radius)) ;;
  ctx (lineTo x (y + radius)) ;;
  ctx (quadraticCurveTo x y (x + radius) y) ;;
  ctx closePath.

(** Draws an apple using circles and lines *)
Definition drawApple (w h : Q) : M unit :=
  let cx := w * 0.35 in
  let cy := h * 0.45 in
  let r := Math_min w h * 0.18 in
  ctx beginPath ;;
  ctx (set_fillStyle (colour "#ff6b6b")) ;;
  ctx (arc cx cy r 0 (Math_PI * 2)) ;;
  ctx fill ;;
  ctx beginPath ;;
  ctx (set_fillStyle (colour "#58d68d")) ;;
  ctx (ellipse (cx + r * 0.55) (cy - r * 0.75) (r * 0.32) (r * 0.18)
         (-0.6) 0 (Math_PI * 2)) ;;
  ctx fill ;;
  ctx beginPath ;;
  ctx (set_strokeStyle (colour "#6b4c2b")) ;;
  ctx (set_lineWidth 4) ;;
  ctx (moveTo cx (cy - r * 0.8)) ;;
  ctx (lineTo (cx + r * 0.1) (cy - r * 1.45)) ;;
  ctx stroke.

(** Draws a banana using curves and transformations *)
Definition drawBanana (w h : Q) : M unit :=
  let cx := w * 0.45 in
  let cy := h * 0.5 in
  let r := Math_min w h * 0.22 in
  ctx save ;;
  ctx (translate cx cy) ;;
  ctx (rotate (-0.3)) ;;
  let L := r * 2.1 in
  let H := r * 0.8 in
  ctx beginPath ;;
  ctx (moveTo (- L * 0.5) (- H * 0.35)) ;;
  ctx (quadraticCurveTo (- L * 0.15) (- H * 1.0) (L * 0.45) (- H * 0.3)) ;;
  ctx (quadraticCurveTo (L * 0.2) (H * 0.95) (- L * 0.55) (H * 0.4)) ;;
  ctx closePath ;;
  let grad := createLinearGradient (- L * 0.5) 0 (L * 0.5) 0 in
  let grad := addColorStop 0 "#ffd23f" grad in
  let grad := addColorStop 0.6 "#ffcf4d" grad in
  let grad := addColorStop 1 "#ffd23f" grad in
  ctx (set_fillStyle (gradient_style grad)) ;;
  ctx fill ;;
  ctx beginPath ;;
  ctx (moveTo (- L * 0.25) (- H * 0.15)) ;;
  ctx (quadraticCurveTo 0 (- H * 0.55) (L * 0.28) (- H * 0.11)) ;;
  ctx (set_strokeStyle (colour "rgba(255,255,255,0.55)")) ;;
  ctx (set_lineWidth 3) ;;
  ctx stroke ;;
  ctx beginPath ;;
  ctx (set_fillStyle (colour "#6b4c2b")) ;;
  roundRect (L * 0.35) (- H * 0.42) (L * 0.08) (H * 0.16) 3 ;;
  ctx fill ;;
  ctx restore.

(** Draws an orange using radial gradient and texture lines *)
Definition drawOrange (w h : Q) : M unit :=
  let cx := w * 0.32 in
  let cy := h * 0.5 in
  let r := Math_min w h * 0.17 in
  ctx save ;;
  let rg := createRadialGradient
              (cx - r * 0.2) (cy - r * 0.2) (r * 0.05) cx cy r in
  let rg := addColorStop 0 "#ffd07a" rg in
  let rg := addColorStop 0.6 "#ff9f1c" rg in
  let rg := addColorStop 1 "#f68b1f" rg in
  ctx beginPath ;;
  ctx (set_fillStyle (gradient_style rg)) ;;
  ctx (arc cx cy r 0 (Math_PI * 2)) ;;
  ctx fill ;;
  ctx beginPath ;;
  ctx (set_fillStyle (colour "#f2a43d")) ;;
  ctx (arc (cx + r * 0.08) (cy - r * 0.05) (r * 0.07) 0 (Math_PI * 2)) ;;
  ctx fill ;;
  ctx beginPath ;;
  ctx (set_strokeStyle (colour "rgba(255,255,255,0.06)")) ;;
  ctx (set_lineWidth 2) ;;
  for_range 0 10 (fun i =>
    let a := inject_Z i / 10 * Math_PI * 2 in
    let x1 := cx + Math_cos a * r * 0.1 in
    let y1 := cy + Math_sin a * r * 0.1 in
    let x2 := cx + Math_cos a * r * 0.9 in
    let y2 := cy + Math_sin a * r * 0.9 in
    ctx (moveTo x1 y1) ;;
    ctx (lineTo x2 y2)) ;;
  ctx stroke ;;
  ctx beginPath ;;
  ctx save ;;
  ctx (translate (cx + r * 0.62) (cy - r * 0.68)) ;;
  ctx (rotate (-0.6)) ;;
  ctx (set_fillStyle (colour "#5ec26b")) ;;
  ctx (moveTo 0 0) ;;
  ctx (quadraticCurveTo (r * 0.2) (- r * 0.45) (r * 0.7) (- r * 0.5)) ;;
  ctx (quadraticCurveTo (r * -0.15) (- r * 0.18) 0 0) ;;
  ctx fill ;;
  ctx restore ;;
  ctx restore.

(** Draws gradient background and current fruit *)
Definition drawBackground : M unit :=
  w <- get (fun s => canvas_clientWidth (host s)) ;;
  h <- get (fun s => canvas_clientHeight (host s)) ;;
  let radius := 12 in
  ctx save ;;
  let g := createLinearGradient 0 0 0 h in
  let g := addColorStop 0 "#ffd" g in
  let g := addColorStop 1 "#fff6cc" g in
  ctx (set_fillStyle (gradient_style g)) ;;
  roundRect 0 0 w h radius ;;
  ctx fill ;;
  currentImage <- get currentImage ;;
  (if (currentImage =? 0)%Z then drawApple w h
   else if (currentImage =? 1)%Z then drawBanana w h
   else drawOrange w h) ;;
  ctx restore.

(** Draw user's text on canvas *)
Definition drawHintText (text : string) : M unit :=
  w <- get (fun s => canvas_clientWidth (host s)) ;;
  h <- get (fun s => canvas_clientHeight (host s)) ;;
  ctx save ;;
  ctx (set_fillStyle (colour "#222")) ;;
  let base := Math_max 28 (Math_floor (Math_min w h / 6)) in
  ctx (set_font (mkFont "bold" base "system-ui, Arial")) ;;
  ctx (set_textAlign "center") ;;
  ctx (set_textBaseline "middle") ;;
  ctx (fillText text (w * 0.7) (h * 0.55)) ;;
  ctx restore.

(** Clears and redraws everything *)
Definition redraw : M unit :=
  cw <- get (fun s => canvas_width (host s)) ;;
  ch <- get (fun s => canvas_height (host s)) ;;
  dpr <- get dpr ;;
  ctx (clearRect 0 0 (cw / dpr) (ch / dpr)) ;;
  drawBackground ;;
  hintText <- get hintText ;;
  when (truthy_string hintText) then drawHintText hintText.

(** Adjusts canvas size for responsive display and high-DPI *)
Definition resize : M unit :=
  width <- get (fun s => canvas_clientWidth (host s)) ;;
  height <- get (fun s => canvas_clientHeight (host s)) ;;
  d <- get (fun s => window_devicePixelRatio (host s)) ;;
  set_dpr (or_number d 1) ;;
  dpr <- get dpr ;;
  set_canvas_width (Math_round (multiply width dpr)) ;;
  set_canvas_height (Math_round (multiply height dpr)) ;;
  set_canvas_style_width (px width) ;;
  set_canvas_style_height (px height) ;;
  ctx (setTransform dpr 0 0 dpr 0 0) ;;
  redraw.

(** Cycle to next fruit *)
Definition nextImage : M unit :=
  currentImage <- get currentImage ;;
  set_currentImage (Z.rem (currentImage + 1) 3) ;;
  set_hintText "" ;;
  redraw.

(** Set text to display *)
Definition writeText (word : value) : M unit :=
  set_hintText (or_string word "") ;;
  redraw.

(** What [document.getElementById] hands to [initCanvas]: [null] when no
    element has the id, an element that is not a canvas and so has no
    [getContext] method, a canvas whose [getContext('2d')] returns [null]
    (it is bound to another kind of context), or a canvas with a 2D
    context. *)
Inductive surface : Type :=
| no_element
| not_a_canvas
| canvas_without_2d
| canvas_2d.

(** How a call of [initCanvas] completes: it throws, leaving the host as it
    is at that moment, or it returns the module, whose methods [resize],
    [writeText] and [nextImage] act on the returned state. *)
Inductive completion : Type :=
| Throw (e : exn) (h : Host)
| Return (s : State).

(** Sets up and controls all canvas drawing.  The guard [if (!canvas) throw]
    is the first statement; after it, [canvas.getContext('2d', ...)] is a
    TypeError on an element without that method, and [ctx.lineCap = 'round']
    is a TypeError on a null context. *)
Definition initCanvas (canvas : surface) (h : Host) : completion :=
  match canvas with
  | no_element => Throw (Error "Canvas element not found") h
  | not_a_canvas => Throw TypeError h
  | canvas_without_2d => Throw TypeError h
  | canvas_2d =>
      let h := log_call (set_lineCap "round") h in
      let h := log_call (set_lineJoin "round") h in
      let s := mkState h (or_number (window_devicePixelRatio h) 1) "" 0 in
      Return (exec resize s)
  end.

(** The background panel of [drawBackground]. *)
Definition panel_gradient (h : Q) : gradient :=
  addColorStop 1 "#fff6cc" (addColorStop 0 "#ffd"
    (createLinearGradient 0 0 0 h)).

(** *** The illustrations, named as the comment on [currentImage] has them *)

Inductive fruit : Type := apple | banana | orange.

Definition draw (f : fruit) (w h : Q) : M unit :=
  match f with
  | apple => drawApple w h
  | banana => drawBanana w h
  | orange => drawOrange w h
  end.

Definition valid_index (i : Z) : Prop := (i = 0 \/ i = 1 \/ i = 2)%Z.

(** The illustration an index stands for; any index that is neither 0 nor 1
    stands for the orange. *)
Definition selected (i : Z) : fruit :=
  if (i =? 0)%Z then apple else if (i =? 1)%Z then banana else orange.

(** The calls of [drawBackground] when the illustration is [f]. *)
Definition background_with (f : fruit) (s : State) : list call :=
  let w := canvas_clientWidth (host s) in
  let h := canvas_clientHeight (host s) in
  [save; set_fillStyle (gradient_style (panel_gradient h))]
  ++ emitted (roundRect 0 0 w h 12) s ++ [fill]
  ++ emitted (draw f w h) s
  ++ [restore].

(** *** The module in use

    The host calls the three methods [initCanvas] returned; between two
    calls it may change the layout box of the canvas or the device pixel
    ratio. *)

Inductive event : Type :=
| call_resize
| call_nextImage
| call_writeText (word : value)
| host_layout (w h : Q)
| host_devicePixelRatio (d : option Q).

Definition set_layout (w h : Q) : M unit :=
  modify (with_host (fun x =>
    let 'mkHost r _ _ bw bh sw sh l := x in
    mkHost r w h bw bh sw sh l)).

Definition set_devicePixelRatio (d : option Q) : M unit :=
  modify (with_host (fun x =>
    let 'mkHost _ cw ch bw bh sw sh l := x in
    mkHost d cw ch bw bh sw sh l)).

Definition step (ev : event) : M unit :=
  match ev with
  | call_resize => resize
  | call_nextImage => nextImage
  | call_writeText word => writeText word
  | host_layout w h => set_layout w h
  | host_devicePixelRatio d => set_devicePixelRatio d
  end.

Definition run_events (evs : list event) (s : State) : State :=
  fold_left (fun s ev => exec (step ev) s) evs s.

(** The states the module is in between two events. *)
Inductive reachable : State -> Prop :=
| reachable_init (h : Host) (s : State) :
    initCanvas canvas_2d h = Return s -> reachable s
| reachable_step (s : State) (ev : event) :
    reachable s -> reachable (exec (step ev) s).

(** [n] calls of [nextImage] in a row. *)
Fixpoint nextImage_times (n : nat) (s : State) : State :=
  match n with
  | O => s
  | S n' => nextImage_times n' (exec nextImage s)
  end.

(** Two hosts offer the same environment: the same layout size and the
    same scale factor.  The buffer size, the inline style and the calls
    already logged may differ. *)
Definition same_environment (h1 h2 : Host) : Prop :=
  window_devicePixelRatio h1 = window_devicePixelRatio h2 /\
  canvas_clientWidth h1 = canvas_clientWidth h2 /\
  canvas_clientHeight h1 = canvas_clientHeight h2.

(** Two states agree on everything a method reads. *)
Definition agree (s1 s2 : State) : Prop :=
  same_environment (host s1) (host s2) /\
  canvas_width (host s1) = canvas_width (host s2) /\
  canvas_height (host s1) = canvas_height (host s2) /\
  dpr s1 = dpr s2 /\
  hintText s1 = hintText s2 /\
  currentImage s1 = currentImage s2.

Local Abbreviation run_ctx := (Canvas2D.run Math_cos Math_sin).

(** The state in which [resize] calls [redraw]: the scale factor, the buffer
    and the style are set and [setTransform] is logged. *)
Definition sized (s : State) : State :=
  let scale := or_number (window_devicePixelRatio (host s)) 1 in
  let width := canvas_clientWidth (host s) in
  let height := canvas_clientHeight (host s) in
  mkState
    (mkHost (window_devicePixelRatio (host s)) width height
       (Math_round (multiply width scale))
       (Math_round (multiply height scale))
       (Some (px width)) (Some (px height))
       (ctx_calls (host s) ++ [setTransform scale 0 0 scale 0 0]))
    scale (hintText s) (currentImage s).

(** The module together with the context of its canvas, between two events.
    The construction ends with a call of [resize], and a call of [resize]
    may find any context: a browser resets the context of a canvas when its
    buffer size is assigned, and [resize] makes its first call on the
    context after the assignments.  Every other method runs its calls on
    the context the previous event has left. *)
Inductive in_session : State -> Canvas2D.context -> Prop :=
| session_resize (s : State) (y : Canvas2D.context) :
    in_session (exec resize s) (run_ctx (emitted resize s) y)
| session_nextImage (s : State) (x : Canvas2D.context) :
    in_session s x ->
    in_session (exec nextImage s) (run_ctx (emitted nextImage s) x)
| session_writeText (word : value) (s : State) (x : Canvas2D.context) :
    in_session s x ->
    in_session (exec (writeText word) s)
      (run_ctx (emitted (writeText word) s) x)
| session_layout (w h : Q) (s : State) (x : Canvas2D.context) :
    in_session s x -> in_session (exec (set_layout w h) s) x
| session_devicePixelRatio (d : option Q) (s : State)
    (x : Canvas2D.context) :
    in_session s x -> in_session (exec (set_devicePixelRatio d) s) x.

(** The context [x] draws in logical units of the module in state [s]:
    its matrix is the uniform scaling by [dpr], which is not zero. *)
Definition scaled_for (s : State) (x : Canvas2D.context) : Prop :=
  Canvas2D.transform (Canvas2D.cur x) = Canvas2D.scaling (dpr s) /\
  ~ dpr s == 0.

(** Two segments with the same end points. *)
Definition same_segment (a b : (Q * Q) * (Q * Q)) : Prop :=
  fst (fst a) == fst (fst b) /\ snd (fst a) == snd (fst b) /\
  fst (snd a) == fst (snd b) /\ snd (snd a) == snd (snd b).

(** The font of the overlay text on a [w] by [h] surface. *)
Definition overlay_font (w h : Q) : font :=
  mkFont "bold" (Math_max 28 (Math_floor (Math_min w h / 6)))
    "system-ui, Arial".

(** *** The sketch on the page: [initApp] and the handler of
    DOMContentLoaded *)

(** How the start of the page completes: it throws, with the page and the
    host as the throw finds them, or the module of the canvas is running. *)
Inductive started : Type :=
| Failed (e : exn) (p : Page) (h : Host)
| Started (p : Page) (s : State).

Definition initApp (canvas : surface) (p : Page) (h : Host) : started :=
  match initCanvas canvas h with
  | Throw e h' => Failed e p h'
  | Return s =>
      let 'mkPage (mkSketch t _ _) sp qz ls := p in
      let p := mkPage (mkSketch t false false) sp qz ls in
      let p := addEventListener "sketch-write" "click" p in
      let p := addEventListener "sketch-next" "click" p in
      Started (addEventListener "window" "resize" p) s
  end.

(** Draw typed text on canvas *)
Definition write_click (p : Page) (s : State) : Page * State :=
  (p, exec (writeText (str (Str.trim (textInput_value (sketch p))))) s).

(** Show next fruit image *)
Definition next_image_click (p : Page) (s : State) : Page * State :=
  let s := exec nextImage s in
  let 'mkPage (mkSketch _ nb wb) sp qz ls := p in
  (mkPage (mkSketch "" nb wb) sp qz ls, s).

(** Recalculate canvas size when window resizes *)
Definition window_resize (p : Page) (s : State) : Page * State :=
  (p, exec resize s).

(** The handler of DOMContentLoaded: [initApp(); initSpeech();
    initVideo();]. *)
Definition DOMContentLoaded (canvas : surface) (supported : bool)
    (p : Page) (h : Host) : started :=
  match initApp canvas p h with
  | Failed e p h => Failed e p h
  | Started p s =>
      match initVideo (initSpeech supported p) with
      | page_ok p => Started p s
      | page_threw e p => Failed e p (host s)
      end
  end.

(** *** The sketch in use

    Once the page has started, the user edits the text field or clicks one
    of the two buttons, or the window is resized. *)

Inductive page_event : Type :=
| type_text (text : string)
| click_write
| click_next_image
| resize_window.

Definition type_into (text : string) (p : Page) : Page :=
  let 'mkPage (mkSketch _ nb wb) sp qz ls := p in
  mkPage (mkSketch text nb wb) sp qz ls.

Definition page_step (ev : page_event) (ps : Page * State) : Page * State :=
  let (p, s) := ps in
  match ev with
  | type_text text => (type_into text p, s)
  | click_write => write_click p s
  | click_next_image => next_image_click p s
  | resize_window => window_resize p s
  end.

Definition page_run (evs : list page_event) (ps : Page * State)
  : Page * State :=
  fold_left (fun ps ev => page_step ev ps) evs ps.

(** The calls of the overlay text [t] on a [w] by [h] surface. *)
Definition overlay_calls (t : string) (w h : Q) : list call :=
  [save; set_fillStyle (colour "#222"); set_font (overlay_font w h);
   set_textAlign "center"; set_textBaseline "middle";
   fillText t (w * 0.7) (h * 0.55); restore].

(** ** Properties *)

Ltac run_js :=
  cbv [exec bind ret get modify ctx with_host log_call log_calls
       clear_calls emitted
       roundRect drawApple drawBanana drawOrange drawBackground
       drawHintText redraw resize nextImage writeText draw step
       set_layout set_devicePixelRatio
       set_dpr set_hintText set_currentImage set_canvas_width
       set_canvas_height set_canvas_style_width set_canvas_style_height
       createLinearGradient createRadialGradient addColorStop
       panel_gradient overlay_font
       snd fst host dpr hintText currentImage
       window_devicePixelRatio canvas_clientWidth canvas_clientHeight
       canvas_width canvas_height canvas_style_width canvas_style_height
       ctx_calls kind stops].

(** Unrolls the loop of [drawOrange]; for goals without integer arithmetic
    on variables. *)
Ltac unroll :=
  cbv [for_range for_count Z.to_nat Z.sub Z.add Z.opp Z.pos_sub Pos.to_nat
       Pos.iter_op Nat.add Pos.add Pos.succ Pos.pred_double Z.double
       Z.succ_double Z.pred_double]; run_js.

Ltac flatten_log := rewrite <- ?app_assoc; cbn [app].

Ltac destruct_state s :=
  let d := fresh "d" in let cw := fresh "cw" in let ch := fresh "ch" in
  let bw := fresh "bw" in let bh := fresh "bh" in let sw := fresh "sw" in
  let sh := fresh "sh" in let l := fresh "l" in let dp := fresh "dp" in
  let hi := fresh "hi" in let ci := fresh "ci" in
  destruct s as [[d cw ch bw bh sw sh l] dp hi ci].

(** *** A redraw only adds calls to the log *)

Lemma redraw_logs (s : State) :
  exec redraw s = with_host (log_calls (emitted redraw s)) s.
Proof.
  destruct_state s. run_js; unroll.
  destruct (ci =? 0)%Z; [|destruct (ci =? 1)%Z]; run_js;
    destruct (truthy_string hi); run_js; flatten_log; reflexivity.
Qed.

Lemma redraw_frame (s : State) :
  dpr (exec redraw s) = dpr s /\
  hintText (exec redraw s) = hintText s /\
  currentImage (exec redraw s) = currentImage s /\
  ctx_calls (host (exec redraw s)) = ctx_calls (host s) ++ emitted redraw s.
Proof. rewrite redraw_logs. destruct_state s. repeat split. Qed.

Lemma nextImage_redraws (s : State) :
  exec nextImage s =
  exec redraw (mkState (host s) (dpr s) "" (Z.rem (currentImage s + 1) 3)).
Proof.
  destruct_state s.
  cbv [nextImage exec bind get modify set_currentImage set_hintText
       host dpr hintText currentImage snd].
  reflexivity.
Qed.

Lemma writeText_redraws (word : value) (s : State) :
  exec (writeText word) s =
  exec redraw (mkState (host s) (dpr s) (or_string word "") (currentImage s)).
Proof.
  destruct_state s.
  cbv [writeText exec bind modify set_hintText
       host dpr hintText currentImage snd].
  reflexivity.
Qed.

Lemma resize_redraws (s : State) : exec resize s = exec redraw (sized s).
Proof.
  destruct_state s.
  cbv [resize sized exec bind get modify ctx with_host log_call set_dpr
       set_canvas_width set_canvas_height set_canvas_style_width
       set_canvas_style_height host dpr hintText currentImage snd
       window_devicePixelRatio canvas_clientWidth canvas_clientHeight
       canvas_width canvas_height canvas_style_width canvas_style_height
       ctx_calls].
  reflexivity.
Qed.

Ltac destruct_agree H :=
  unfold agree, same_environment in H;
  cbn [host dpr hintText currentImage window_devicePixelRatio
       canvas_clientWidth canvas_clientHeight canvas_width canvas_height]
    in H;
  destruct H as ((? & ? & ?) & ? & ? & ? & ? & ?); subst.

(** The calls of a redraw depend on nothing but what [agree] compares. *)
Lemma redraw_agree (u1 u2 : State) :
  agree u1 u2 -> emitted redraw u1 = emitted redraw u2.
Proof.
  intros H. destruct_state u1. destruct_state u2. destruct_agree H.
  run_js; unroll.
  destruct (ci0 =? 0)%Z; [|destruct (ci0 =? 1)%Z]; run_js;
    destruct (truthy_string hi0); reflexivity.
Qed.

(** The calls of the three methods: a [setTransform] first for [resize],
    and for each of them the calls of the redraw it ends with. *)
Lemma resize_calls (s : State) :
  emitted resize s =
  setTransform (dpr (sized s)) 0 0 (dpr (sized s)) 0 0
  :: emitted redraw (sized s).
Proof.
  unfold emitted at 1. rewrite resize_redraws.
  destruct (redraw_frame (sized (with_host clear_calls s)))
    as (_ & _ & _ & Hl).
  rewrite Hl.
  rewrite (redraw_agree (sized (with_host clear_calls s)) (sized s))
    by (destruct_state s; repeat split).
  destruct_state s. reflexivity.
Qed.

Lemma nextImage_calls (s : State) :
  emitted nextImage s =
  emitted redraw
    (mkState (host s) (dpr s) "" (Z.rem (currentImage s + 1) 3)).
Proof.
  unfold emitted at 1. rewrite nextImage_redraws.
  match goal with |- context [exec redraw ?u] =>
    destruct (redraw_frame u) as (_ & _ & _ & Hl); rewrite Hl;
    rewrite (redraw_agree u
               (mkState (host s) (dpr s) "" (Z.rem (currentImage s + 1) 3)))
      by (destruct_state s; repeat split)
  end.
  destruct_state s. reflexivity.
Qed.

Lemma writeText_calls (word : value) (s : State) :
  emitted (writeText word) s =
  emitted redraw
    (mkState (host s) (dpr s) (or_string word "") (currentImage s)).
Proof.
  unfold emitted at 1. rewrite writeText_redraws.
  match goal with |- context [exec redraw ?u] =>
    destruct (redraw_frame u) as (_ & _ & _ & Hl); rewrite Hl;
    rewrite (redraw_agree u
               (mkState (host s) (dpr s) (or_string word "")
                  (currentImage s)))
      by (destruct_state s; repeat split)
  end.
  destruct_state s. reflexivity.
Qed.

(** Every event adds its calls to the log and leaves the earlier ones. *)
Lemma step_logs (ev : event) (s : State) :
  ctx_calls (host (exec (step ev) s)) =
  ctx_calls (host s) ++ emitted (step ev) s.
Proof.
  destruct ev as [| |word|w h|d]; cbn [step].
  - rewrite resize_calls, resize_redraws.
    destruct (redraw_frame (sized s)) as (_ & _ & _ & Hl). rewrite Hl.
    destruct_state s. unfold sized. cbn [host ctx_calls dpr].
    rewrite <- app_assoc. reflexivity.
  - rewrite nextImage_calls, nextImage_redraws.
    match goal with |- context [exec redraw ?u] =>
      destruct (redraw_frame u) as (_ & _ & _ & Hl); rewrite Hl end.
    reflexivity.
  - rewrite writeText_calls, writeText_redraws.
    match goal with |- context [exec redraw ?u] =>
      destruct (redraw_frame u) as (_ & _ & _ & Hl); rewrite Hl end.
    reflexivity.
  - destruct_state s. cbn. rewrite app_nil_r. reflexivity.
  - destruct_state s. cbn. rewrite app_nil_r. reflexivity.
Qed.

Lemma nextImage_index (s : State) :
  currentImage (exec nextImage s) = Z.rem (currentImage s + 1) 3.
Proof.
  rewrite nextImage_redraws.
  match goal with |- context [exec redraw ?u] =>
    destruct (redraw_frame u) as (_ & _ & Hc & _) end.
  rewrite Hc. reflexivity.
Qed.

Lemma rem_valid (i : Z) :
  valid_index i -> Z.rem (i + 1) 3 = ((i + 1) mod 3)%Z.
Proof. intros [->|[->| ->]]; reflexivity. Qed.

Lemma mod_valid (i : Z) : valid_index (i mod 3).
Proof.
  unfold valid_index. pose proof (Z.mod_pos_bound i 3 eq_refl). lia.
Qed.

Lemma next_valid (i : Z) : valid_index i -> valid_index (Z.rem (i + 1) 3).
Proof. intros H. rewrite (rem_valid i H). apply mod_valid. Qed.

Lemma or_string_empty (word : value) :
  or_string word "" = match word with str x => x | _ => "" end.
Proof.
  destruct word as [| |x]; try reflexivity.
  unfold or_string, truthy_string.
  destruct (String.eqb_spec x ""); subst; reflexivity.
Qed.

(** C3.  From every state, [nextImage] leaves the overlay text empty,
    whatever it was, and the index at the remainder of current + 1 by 3,
    which is (current + 1) mod 3 for an index that is one of 0, 1, 2; it then
    redraws: the state it returns is that of a redraw run on the updated
    scene, and the log has grown by the calls of that redraw.  [nextImage]
    is a total function on states: it has no way to throw. *)
Theorem nextImage_spec (s : State) :
  let s' := exec nextImage s in
  let updated :=
    mkState (host s) (dpr s) "" (Z.rem (currentImage s + 1) 3) in
  hintText s' = "" /\
  currentImage s' = Z.rem (currentImage s + 1) 3 /\
  (valid_index (currentImage s) ->
   currentImage s' = ((currentImage s + 1) mod 3)%Z) /\
  s' = exec redraw updated /\
  ctx_calls (host s') = ctx_calls (host s) ++ emitted redraw updated.
Proof.
  intros s' updated. subst s'. rewrite nextImage_redraws. fold updated.
  destruct (redraw_frame updated) as (_ & Hh & Hc & Hl).
  split; [exact Hh|]. split; [exact Hc|].
  split; [intros Hv; rewrite Hc; apply rem_valid, Hv|].
  split; [reflexivity | exact Hl].
Qed.

(** C4.  [writeText(x)] leaves the overlay text at [x] when [x] is a string
    and at the empty string when [x] is null or absent; the index is
    unchanged; the text is what the state holds once the call has returned,
    the redraw included. *)
Theorem writeText_spec (word : value) (s : State) :
  let s' := exec (writeText word) s in
  hintText s' = match word with str x => x | null | undefined => "" end /\
  currentImage s' = currentImage s.
Proof.
  cbv zeta. rewrite writeText_redraws.
  match goal with |- context [exec redraw ?u] =>
    destruct (redraw_frame u) as (_ & Hh & Hc & _) end.
  rewrite Hh, Hc. cbn [hintText currentImage]. split; [|reflexivity].
  rewrite or_string_empty. destruct word; reflexivity.
Qed.

Lemma step_index (ev : event) (s : State) :
  valid_index (currentImage s) ->
  valid_index (currentImage (exec (step ev) s)).
Proof.
  intros Hv. destruct ev as [| |word|w h|d]; cbn [step].
  - rewrite resize_redraws. cbv zeta.
    match goal with |- context [exec redraw ?u] =>
      destruct (redraw_frame u) as (_ & _ & Hc & _) end.
    rewrite Hc. exact Hv.
  - rewrite nextImage_index. apply next_valid, Hv.
  - rewrite writeText_redraws.
    match goal with |- context [exec redraw ?u] =>
      destruct (redraw_frame u) as (_ & _ & Hc & _) end.
    rewrite Hc. exact Hv.
  - destruct_state s. exact Hv.
  - destruct_state s. exact Hv.
Qed.

Lemma initCanvas_index (h : Host) (s : State) :
  initCanvas canvas_2d h = Return s -> currentImage s = 0%Z.
Proof.
  cbn [initCanvas]. intros H. injection H as <-.
  rewrite resize_redraws. cbv zeta.
  match goal with |- context [exec redraw ?u] =>
    destruct (redraw_frame u) as (_ & _ & Hc & _) end.
  rewrite Hc. reflexivity.
Qed.

(** C5.  The index is always one of 0, 1, 2: the module is constructed with
    index 0, every call of [resize], [nextImage] or [writeText] and every
    change of the host keeps an index that is one of the three, and so
    every reachable state has such an index. *)
Theorem index_always_valid :
  (forall h s, initCanvas canvas_2d h = Return s -> currentImage s = 0%Z) /\
  (forall ev s, valid_index (currentImage s) ->
                valid_index (currentImage (exec (step ev) s))) /\
  (forall s, reachable s -> valid_index (currentImage s)).
Proof.
  split; [exact initCanvas_index|]. split; [exact step_index|].
  induction 1 as [h s Hinit|s ev _ IH].
  - rewrite (initCanvas_index h s Hinit). left. reflexivity.
  - apply step_index, IH.
Qed.

Lemma nextImage_times_index (n : nat) (s : State) :
  valid_index (currentImage s) ->
  currentImage (nextImage_times n s) =
  ((currentImage s + Z.of_nat n) mod 3)%Z.
Proof.
  revert s. induction n as [|n IH]; intros s Hv.
  - cbn [nextImage_times]. destruct Hv as [->|[->| ->]]; reflexivity.
  - cbn [nextImage_times]. rewrite IH.
    + rewrite nextImage_index, (rem_valid _ Hv).
      rewrite Z.add_mod_idemp_l by discriminate.
      f_equal. lia.
    + rewrite nextImage_index. apply next_valid, Hv.
Qed.

(** C9.  From every state whose index is one of 0, 1, 2, three calls of
    [nextImage] bring the index back to where it was, one call and two
    calls do not (the period is exactly 3), and [n] calls leave the same
    index as [n mod 3] calls. *)
Theorem nextImage_period (s : State) :
  valid_index (currentImage s) ->
  currentImage (nextImage_times 3 s) = currentImage s /\
  currentImage (nextImage_times 1 s) <> currentImage s /\
  currentImage (nextImage_times 2 s) <> currentImage s /\
  (forall n : nat,
     currentImage (nextImage_times n s) =
     currentImage (nextImage_times (n mod 3) s)).
Proof.
  intros Hv. repeat split.
  - rewrite (nextImage_times_index 3 s Hv).
    destruct Hv as [->|[->| ->]]; reflexivity.
  - rewrite (nextImage_times_index 1 s Hv).
    destruct Hv as [->|[->| ->]]; discriminate.
  - rewrite (nextImage_times_index 2 s Hv).
    destruct Hv as [->|[->| ->]]; discriminate.
  - intros n. rewrite !(nextImage_times_index _ s Hv).
    rewrite Nat2Z.inj_mod. change (Z.of_nat 3) with 3%Z.
    rewrite Z.add_mod_idemp_r by discriminate. reflexivity.
Qed.

(** *** Construction *)

Lemma initCanvas_returns (h : Host) :
  exists s rest,
    initCanvas canvas_2d h = Return s /\
    ctx_calls (host s) =
    ctx_calls h ++ set_lineCap "round" :: set_lineJoin "round" :: rest.
Proof.
  destruct h as [r cw ch bw bh sw sh l].
  eexists. eexists. split; [reflexivity|].
  rewrite resize_redraws.
  match goal with |- context [exec redraw ?u] =>
    destruct (redraw_frame u) as (_ & _ & _ & Hl) end.
  rewrite Hl. cbv [sized log_call]. cbn [host ctx_calls].
  rewrite <- !app_assoc. cbn [app]. reflexivity.
Qed.

(** C6.  Constructed on anything but a canvas with a 2D context, the module
    throws, and the host is then exactly as it was before the call: no
    buffer size or style was written and no call was made on a context.
    When the element is missing, what is thrown is the error 'Canvas
    element not found'. *)
Theorem initCanvas_rejects (canvas : surface) (h : Host) :
  canvas <> canvas_2d ->
  (exists e, initCanvas canvas h = Throw e h) /\
  (canvas = no_element ->
   initCanvas canvas h = Throw (Error "Canvas element not found") h).
Proof.
  intros Hne. destruct canvas; try contradiction; cbn [initCanvas].
  - split; [eexists; reflexivity | reflexivity].
  - split; [eexists; reflexivity | discriminate].
  - split; [eexists; reflexivity | discriminate].
Qed.

(** *** The dispatch on the index *)

Lemma drawBackground_calls (s : State) :
  emitted drawBackground s = background_with (selected (currentImage s)) s.
Proof.
  destruct_state s. unfold background_with, selected.
  run_js; unroll.
  destruct (ci =? 0)%Z; [|destruct (ci =? 1)%Z]; run_js; cbn [app];
    flatten_log; reflexivity.
Qed.

Lemma background_with_inj (f g : fruit) (s : State) :
  background_with f s = background_with g s -> f = g.
Proof.
  unfold background_with. cbv zeta. intros H.
  apply app_inv_head in H. apply app_inv_head in H.
  apply app_inv_head in H. apply app_inv_tail in H.
  destruct_state s.
  destruct f, g; try reflexivity; revert H; run_js; unroll; cbn [app];
    discriminate.
Qed.

Lemma redraw_calls (s : State) :
  emitted redraw s =
  [clearRect 0 0 (canvas_width (host s) / dpr s)
     (canvas_height (host s) / dpr s)]
  ++ background_with (selected (currentImage s)) s
  ++ (if truthy_string (hintText s)
      then emitted (drawHintText (hintText s)) s else []).
Proof.
  destruct_state s. unfold background_with, selected. run_js; unroll.
  destruct (ci =? 0)%Z; [|destruct (ci =? 1)%Z]; run_js;
    destruct (truthy_string hi); run_js; cbn [app]; reflexivity.
Qed.

(** C10.  Whatever the index, [drawBackground] draws exactly one
    illustration between the panel and its final [restore]: the apple when
    the index is 0, the banana when it is 1, and the orange for every other
    value, in range or not.  Every redraw contains these calls, right after
    its [clearRect]. *)
Theorem dispatch_total (s : State) :
  let i := currentImage s in
  (forall f, emitted drawBackground s = background_with f s <->
             f = selected i) /\
  (exists overlay,
     emitted redraw s =
     [clearRect 0 0 (canvas_width (host s) / dpr s)
        (canvas_height (host s) / dpr s)]
     ++ background_with (selected i) s ++ overlay) /\
  (i = 0%Z -> selected i = apple) /\
  (i = 1%Z -> selected i = banana) /\
  (i <> 0%Z -> i <> 1%Z -> selected i = orange).
Proof.
  cbv zeta. split; [|split; [|unfold selected; repeat split]].
  - intros f. rewrite drawBackground_calls. split.
    + intros H. symmetry. exact (background_with_inj _ _ s H).
    + intros ->. reflexivity.
  - eexists. apply redraw_calls.
  - intros ->. reflexivity.
  - intros ->. reflexivity.
  - intros H0 H1.
    destruct (Z.eqb_spec (currentImage s) 0); [contradiction|].
    destruct (Z.eqb_spec (currentImage s) 1); [contradiction|].
    reflexivity.
Qed.

(** *** The context under a redraw *)

Ltac run_canvas :=
  cbv [Canvas2D.run fold_left Canvas2D.exec Canvas2D.update
       Canvas2D.add_segment Canvas2D.add_paint Canvas2D.with_transform
       Canvas2D.cur Canvas2D.saved Canvas2D.painted Canvas2D.current_path
       Canvas2D.transform Canvas2D.fillStyle Canvas2D.strokeStyle
       Canvas2D.lineWidth Canvas2D.lineCap Canvas2D.lineJoin Canvas2D.font
       Canvas2D.textAlign Canvas2D.textBaseline].

Ltac destruct_context x :=
  let m := fresh "m" in let fs := fresh "fs" in let ss := fresh "ss" in
  let lw := fresh "lw" in let lc := fresh "lc" in let lj := fresh "lj" in
  let fnt := fresh "fnt" in let ta := fresh "ta" in let tb := fresh "tb" in
  let st := fresh "st" in let pth := fresh "pth" in let out := fresh "out" in
  destruct x as [[m fs ss lw lc lj fnt ta tb] st pth out].

Lemma run_app (l1 l2 : list call) (x : Canvas2D.context) :
  run_ctx (l1 ++ l2) x = run_ctx l2 (run_ctx l1 x).
Proof. apply fold_left_app. Qed.

(** A redraw leaves the drawing state and the stack of saved states as it
    found them: every [save] it does is undone by a [restore]. *)
Lemma redraw_keeps_state (s : State) (x : Canvas2D.context) :
  Canvas2D.cur (run_ctx (emitted redraw s) x) = Canvas2D.cur x /\
  Canvas2D.saved (run_ctx (emitted redraw s) x) = Canvas2D.saved x.
Proof.
  destruct_state s. destruct_context x. run_js; unroll.
  destruct (ci =? 0)%Z; [|destruct (ci =? 1)%Z]; run_js;
    destruct (truthy_string hi); run_js; cbn [app]; run_canvas;
    split; reflexivity.
Qed.

(** *** Rounding

    [Math.round] gives the integer within a half of its argument, the
    upper one at a tie. *)
Lemma Math_round_nearest (x : Q) :
  inject_Z (Qfloor (x + 0.5)) - 0.5 <= x /\
  x < inject_Z (Qfloor (x + 0.5)) + 0.5.
Proof.
  split.
  - apply (Qplus_le_l _ _ 0.5).
    setoid_replace (inject_Z (Qfloor (x + 0.5)) - 0.5 + 0.5)
      with (inject_Z (Qfloor (x + 0.5))) by ring.
    apply Qfloor_le.
  - apply (Qplus_lt_l _ _ 0.5).
    setoid_replace (inject_Z (Qfloor (x + 0.5)) + 0.5 + 0.5)
      with (inject_Z (Qfloor (x + 0.5) + 1))
      by (rewrite inject_Z_plus; ring).
    apply Qlt_floor.
Qed.

Lemma Math_round_comp (x y : Q) : x == y -> Math_round x = Math_round y.
Proof.
  intros E. unfold Math_round. f_equal. apply Qfloor_comp.
  rewrite E. reflexivity.
Qed.

(** Powers of two. *)

Lemma pow2_pos (e : Z) : 0 < 2 ^ e.
Proof. apply Qpower_0_lt. reflexivity. Qed.

Lemma pow2_le (a b : Z) : (a <= b)%Z -> 2 ^ a <= 2 ^ b.
Proof. intros H. apply Qpower_le_compat_l; [exact H | discriminate]. Qed.

Lemma pow2_lt (a b : Z) : (a < b)%Z -> 2 ^ a < 2 ^ b.
Proof. intros H. apply Qpower_lt_compat_l; [exact H | reflexivity]. Qed.

Lemma pow2_lt_inv (a b : Z) : 2 ^ a < 2 ^ b -> (a < b)%Z.
Proof. intros H. apply (Qpower_lt_compat_l_inv 2); [exact H | reflexivity]. Qed.

Lemma pow2_plus (a b : Z) : 2 ^ (a + b) == 2 ^ a * 2 ^ b.
Proof. apply Qpower_plus. discriminate. Qed.

Lemma pow2_Z (n : Z) : (0 <= n)%Z -> inject_Z (2 ^ n) == 2 ^ n.
Proof. intros H. exact (Zpower_Qpower 2 n H). Qed.

(** The exponent. *)

Lemma Qnum_den (x : Q) : x * inject_Z (Zpos (Qden x)) == inject_Z (Qnum x).
Proof. destruct x as [n d]. unfold Qeq. cbn. lia. Qed.

Lemma ilog2_spec (x : Q) :
  0 < x -> 2 ^ ilog2 x <= x /\ x < 2 ^ (ilog2 x + 1).
Proof.
  intros Hx.
  assert (Hn : (0 < Qnum x)%Z).
  { destruct x as [n d]. unfold Qlt in Hx. cbn in Hx. cbn. lia. }
  pose proof (Z.log2_spec (Qnum x) Hn) as [Ha1 Ha2].
  pose proof (Z.log2_spec (Zpos (Qden x)) eq_refl) as [Hb1 Hb2].
  pose proof (Z.log2_nonneg (Qnum x)) as Ha0.
  pose proof (Z.log2_nonneg (Zpos (Qden x))) as Hb0.
  set (a := Z.log2 (Qnum x)) in *. set (b := Z.log2 (Zpos (Qden x))) in *.
  pose proof (Qnum_den x) as E.
  set (D := inject_Z (Zpos (Qden x))) in *.
  set (N := inject_Z (Qnum x)) in *.
  assert (HD : 0 < D) by reflexivity.
  assert (HD1 : 2 ^ b <= D).
  { rewrite <- pow2_Z by exact Hb0. unfold D. rewrite <- Zle_Qle. exact Hb1. }
  assert (HD2 : D < 2 ^ (b + 1)).
  { rewrite <- pow2_Z by lia. unfold D. rewrite <- Zlt_Qlt. exact Hb2. }
  assert (HN1 : 2 ^ a <= N).
  { rewrite <- pow2_Z by exact Ha0. unfold N. rewrite <- Zle_Qle. exact Ha1. }
  assert (HN2 : N < 2 ^ (a + 1)).
  { rewrite <- pow2_Z by lia. unfold N. rewrite <- Zlt_Qlt. exact Ha2. }
  assert (Hlow : 2 ^ (a - b - 1) < x).
  { apply (Qmult_lt_r _ _ D HD). rewrite E.
    apply Qlt_le_trans with (2 ^ a); [|exact HN1].
    replace a with ((a - b - 1) + (b + 1))%Z at 2 by lia.
    rewrite pow2_plus. apply Qmult_lt_l; [apply pow2_pos | exact HD2]. }
  assert (Hup : x < 2 ^ (a - b + 1)).
  { apply (Qmult_lt_r _ _ D HD). rewrite E.
    apply Qlt_le_trans with (2 ^ (a + 1)); [exact HN2|].
    replace (a + 1)%Z with ((a - b + 1) + b)%Z by lia.
    rewrite pow2_plus. apply Qmult_le_l; [apply pow2_pos | exact HD1]. }
  unfold ilog2. fold a b.
  destruct (Qle_bool (2 ^ (a - b)) x) eqn:C.
  - apply Qle_bool_iff in C. split; assumption.
  - assert (C' : x < 2 ^ (a - b)).
    { apply Qnot_le_lt. intros H. apply Qle_bool_iff in H. congruence. }
    split; [apply Qlt_le_weak; exact Hlow|].
    replace (a - b - 1 + 1)%Z with (a - b)%Z by lia. exact C'.
Qed.

Lemma ilog2_unique (x : Q) (e : Z) :
  2 ^ e <= x -> x < 2 ^ (e + 1) -> ilog2 x = e.
Proof.
  intros H1 H2.
  assert (Hx : 0 < x) by (eapply Qlt_le_trans; [apply pow2_pos | exact H1]).
  destruct (ilog2_spec x Hx) as [S1 S2].
  assert (A : (e < ilog2 x + 1)%Z)
    by (apply pow2_lt_inv; eapply Qle_lt_trans; eassumption).
  assert (B : (ilog2 x < e + 1)%Z)
    by (apply pow2_lt_inv; eapply Qle_lt_trans; eassumption).
  lia.
Qed.

Lemma ilog2_comp (x y : Q) : 0 < x -> x == y -> ilog2 x = ilog2 y.
Proof.
  intros Hx E. symmetry. destruct (ilog2_spec x Hx) as [S1 S2].
  apply ilog2_unique; rewrite <- E; assumption.
Qed.

Lemma ilog2_le (x y : Q) : 0 < x -> x <= y -> (ilog2 x <= ilog2 y)%Z.
Proof.
  intros Hx H. assert (Hy : 0 < y) by (eapply Qlt_le_trans; eassumption).
  destruct (ilog2_spec x Hx) as [S1 _]. destruct (ilog2_spec y Hy) as [_ T2].
  assert (A : (ilog2 x < ilog2 y + 1)%Z).
  { apply pow2_lt_inv. eapply Qle_lt_trans; [exact S1|].
    eapply Qle_lt_trans; eassumption. }
  lia.
Qed.

(** Rounding to the nearest integer. *)

Lemma round_half_even_floor (m : Q) :
  (Qfloor m <= round_half_even m <= Qfloor m + 1)%Z.
Proof.
  unfold round_half_even.
  destruct (Qcompare _ _); [destruct (Z.even _)| |]; lia.
Qed.

Lemma round_half_even_Z (m : Q) (z : Z) :
  m == inject_Z z -> round_half_even m = z.
Proof.
  intros E. unfold round_half_even.
  assert (F : Qfloor m = z) by (rewrite (Qfloor_comp _ _ E); apply Qfloor_Z).
  rewrite F.
  destruct (Qcompare_spec (m - inject_Z z) (1 # 2)) as [C|C|C];
    [exfalso|reflexivity|exfalso]; rewrite E in C; lra.
Qed.

(** Below the middle of two integers the lower one is nearest. *)
Lemma round_half_even_below (m : Q) (k : Z) :
  m < inject_Z k - (1 # 2) -> (round_half_even m < k)%Z.
Proof.
  intros H. pose proof (Qfloor_le m) as L.
  assert (Hf : (Qfloor m < k)%Z).
  { rewrite Zlt_Qlt. lra. }
  unfold round_half_even.
  destruct (Qcompare_spec (m - inject_Z (Qfloor m)) (1 # 2)) as [C|C|C].
  - assert (Hk : (Qfloor m + 1 < k + 1)%Z) by lia.
    destruct (Z.eq_dec (Qfloor m + 1) k) as [K|K].
    + exfalso. subst k. rewrite inject_Z_plus in H.
      change (inject_Z 1) with 1 in H. lra.
    + destruct (Z.even _); lia.
  - exact Hf.
  - destruct (Z.eq_dec (Qfloor m + 1) k) as [K|K]; [|lia].
    exfalso. subst k. rewrite inject_Z_plus in H.
      change (inject_Z 1) with 1 in H. lra.
Qed.

Lemma round_half_even_ge (m : Q) (k : Z) :
  inject_Z k <= m -> (k <= round_half_even m)%Z.
Proof.
  intros H. pose proof (round_half_even_floor m).
  assert (k <= Qfloor m)%Z.
  { rewrite <- (Qfloor_Z k). apply Qfloor_resp_le, H. }
  lia.
Qed.

Lemma round_half_even_le (m : Q) (k : Z) :
  m <= inject_Z k -> (round_half_even m <= k)%Z.
Proof.
  intros H. destruct (Qlt_le_dec m (inject_Z k)) as [L|L].
  - pose proof (round_half_even_floor m).
    assert (Qfloor m < k)%Z.
    { rewrite Zlt_Qlt. eapply Qle_lt_trans; [apply Qfloor_le | exact L]. }
    lia.
  - rewrite (round_half_even_Z m k); [lia|]. apply Qle_antisym; assumption.
Qed.

Lemma round_half_even_mono (m m' : Q) :
  m <= m' -> (round_half_even m <= round_half_even m')%Z.
Proof.
  intros H. pose proof (Qfloor_resp_le _ _ H) as F.
  pose proof (round_half_even_floor m) as B.
  pose proof (round_half_even_floor m') as B'.
  destruct (Z.eq_dec (Qfloor m) (Qfloor m')) as [E|E]; [|lia].
  unfold round_half_even in *. rewrite <- E in *.
  destruct (Qcompare_spec (m - inject_Z (Qfloor m)) (1 # 2)) as [C|C|C];
    destruct (Qcompare_spec (m' - inject_Z (Qfloor m)) (1 # 2))
      as [C'|C'|C']; try lia; try (destruct (Z.even _); lia);
    exfalso; lra.
Qed.

(** Rounding to 53 bits. *)

Lemma binary64_pos (x : Q) :
  0 < x ->
  binary64 x =
  inject_Z (round_half_even
              (x / 2 ^ (Z.max (ilog2 x) (-1022) - 52)))
  * 2 ^ (Z.max (ilog2 x) (-1022) - 52).
Proof.
  intros Hx. unfold binary64.
  destruct (Qeq_bool x 0) eqn:E.
  - apply Qeq_bool_iff in E. rewrite E in Hx. discriminate.
  - cbv zeta.
    rewrite (ilog2_comp (Qabs x) x);
      [reflexivity | | apply Qabs_pos, Qlt_le_weak, Hx].
    rewrite Qabs_pos by (apply Qlt_le_weak, Hx). exact Hx.
Qed.

Lemma binary64_nonneg (x : Q) : 0 <= x -> 0 <= binary64 x.
Proof.
  intros H. destruct (Qlt_le_dec 0 x) as [Hx|Hx].
  - rewrite (binary64_pos x Hx).
    apply Qmult_le_0_compat; [|apply Qlt_le_weak, pow2_pos].
    change 0 with (inject_Z 0). rewrite <- Zle_Qle.
    apply round_half_even_ge. change (inject_Z 0) with 0.
    apply Qle_shift_div_l; [apply pow2_pos|].
    rewrite Qmult_0_l. exact H.
  - assert (E : x == 0) by (apply Qle_antisym; assumption).
    unfold binary64. apply Qeq_bool_iff in E. rewrite E. apply Qle_refl.
Qed.

(** A number with 53 bits at its exponent is a binary64 number. *)
Lemma binary64_exact (x : Q) (k : Z) :
  0 < x ->
  x == inject_Z k * 2 ^ (Z.max (ilog2 x) (-1022) - 52) ->
  binary64 x == x.
Proof.
  intros Hx E. rewrite (binary64_pos x Hx).
  set (u := 2 ^ (Z.max (ilog2 x) (-1022) - 52)) in *.
  assert (Hu : 0 < u) by apply pow2_pos.
  rewrite (round_half_even_Z _ k); [symmetry; exact E|].
  rewrite E. field. intros H. rewrite H in Hu. discriminate.
Qed.

Lemma binary64_Z (n : Z) :
  (0 <= n <= 2 ^ 53)%Z -> binary64 (inject_Z n) == inject_Z n.
Proof.
  intros H.
  destruct (Z.eq_dec n 0) as [->|N0]; [reflexivity|].
  destruct (Z.eq_dec n (2 ^ 53)) as [->|N1]; [vm_compute; reflexivity|].
  assert (Hn : (0 < n < 2 ^ 53)%Z) by lia.
  assert (Hx : 0 < inject_Z n).
  { change 0 with (inject_Z 0). rewrite <- Zlt_Qlt. lia. }
  pose proof (Z.log2_spec n (proj1 Hn)) as [L1 L2].
  pose proof (Z.log2_nonneg n) as L0.
  assert (L3 : (Z.log2 n < 53)%Z).
  { apply Z.log2_lt_pow2; lia. }
  assert (El : ilog2 (inject_Z n) = Z.log2 n).
  { apply ilog2_unique.
    - rewrite <- pow2_Z by exact L0. rewrite <- Zle_Qle. exact L1.
    - rewrite <- pow2_Z by lia. rewrite <- Zlt_Qlt. exact L2. }
  apply (binary64_exact _ (n * 2 ^ (52 - Z.log2 n))); [exact Hx|].
  rewrite El. rewrite Z.max_l by lia.
  rewrite inject_Z_mult, pow2_Z by lia.
  rewrite <- Qmult_assoc, <- pow2_plus.
  replace (52 - Z.log2 n + (Z.log2 n - 52))%Z with 0%Z by lia.
  cbn. ring.
Qed.

Lemma binary64_le_pow (x : Q) :
  0 < x -> binary64 x <= 2 ^ (Z.max (ilog2 x) (-1022) + 1).
Proof.
  intros Hx. rewrite (binary64_pos x Hx).
  set (e := Z.max (ilog2 x) (-1022)).
  assert (Hu : 0 < 2 ^ (e - 52)) by apply pow2_pos.
  destruct (ilog2_spec x Hx) as [_ S2].
  assert (Hxe : x <= 2 ^ (e + 1)).
  { apply Qlt_le_weak. eapply Qlt_le_trans; [exact S2|].
    apply pow2_le. unfold e. lia. }
  assert (E : 2 ^ (e + 1) == inject_Z (2 ^ 53) * 2 ^ (e - 52)).
  { rewrite pow2_Z by lia. rewrite <- pow2_plus.
    replace (53 + (e - 52))%Z with (e + 1)%Z by lia. reflexivity. }
  rewrite E. apply Qmult_le_compat_r; [|apply Qlt_le_weak, Hu].
  rewrite <- Zle_Qle. apply round_half_even_le.
  apply Qle_shift_div_r; [exact Hu|]. rewrite <- E. exact Hxe.
Qed.

Lemma binary64_ge_pow (x : Q) :
  0 < x -> (-1022 <= ilog2 x)%Z -> 2 ^ ilog2 x <= binary64 x.
Proof.
  intros Hx He. rewrite (binary64_pos x Hx). rewrite Z.max_l by lia.
  set (e := ilog2 x).
  assert (Hu : 0 < 2 ^ (e - 52)) by apply pow2_pos.
  destruct (ilog2_spec x Hx) as [S1 _]. fold e in S1.
  assert (E : 2 ^ e == inject_Z (2 ^ 52) * 2 ^ (e - 52)).
  { rewrite pow2_Z by lia. rewrite <- pow2_plus.
    replace (52 + (e - 52))%Z with e by lia. reflexivity. }
  rewrite E. apply Qmult_le_compat_r; [|apply Qlt_le_weak, Hu].
  rewrite <- Zle_Qle. apply round_half_even_ge.
  apply Qle_shift_div_l; [exact Hu|]. rewrite <- E. exact S1.
Qed.

(** Rounding keeps the order. *)
Lemma binary64_mono (x y : Q) :
  0 < x -> x <= y -> binary64 x <= binary64 y.
Proof.
  intros Hx H. assert (Hy : 0 < y) by (eapply Qlt_le_trans; eassumption).
  pose proof (ilog2_le x y Hx H) as L.
  destruct (Z.eq_dec (Z.max (ilog2 x) (-1022)) (Z.max (ilog2 y) (-1022)))
    as [E|E].
  - rewrite (binary64_pos x Hx), (binary64_pos y Hy), E.
    set (u := 2 ^ (Z.max (ilog2 y) (-1022) - 52)).
    assert (Hu : 0 < u) by apply pow2_pos.
    apply Qmult_le_compat_r; [|apply Qlt_le_weak, Hu].
    rewrite <- Zle_Qle. apply round_half_even_mono.
    apply Qmult_le_compat_r; [exact H|].
    apply Qlt_le_weak, Qinv_lt_0_compat, Hu.
  - eapply Qle_trans; [apply (binary64_le_pow x Hx)|].
    eapply Qle_trans; [|apply (binary64_ge_pow y Hy); lia].
    apply pow2_le. lia.
Qed.

Lemma round_half_even_comp (m m' : Q) :
  m == m' -> round_half_even m = round_half_even m'.
Proof.
  intros E. unfold round_half_even.
  rewrite (Qfloor_comp _ _ E).
  rewrite (Qcompare_comp (m - inject_Z (Qfloor m')) (m' - inject_Z (Qfloor m'))
             ltac:(rewrite E; reflexivity) (1 # 2) (1 # 2) (Qeq_refl _)).
  reflexivity.
Qed.

Lemma binary64_comp (x y : Q) :
  0 <= x -> x == y -> binary64 x == binary64 y.
Proof.
  intros H E. destruct (Qlt_le_dec 0 x) as [Hx|Hx].
  - assert (Hy : 0 < y) by (rewrite <- E; exact Hx).
    rewrite (binary64_pos x Hx), (binary64_pos y Hy).
    rewrite (ilog2_comp x y Hx E).
    rewrite (round_half_even_comp _ (y / 2 ^ (Z.max (ilog2 y) (-1022) - 52)))
      by (rewrite E; reflexivity).
    reflexivity.
  - assert (E0 : x == 0) by (apply Qle_antisym; assumption).
    assert (E1 : y == 0) by (rewrite <- E; exact E0).
    unfold binary64. apply Qeq_bool_iff in E0, E1. rewrite E0, E1.
    reflexivity.
Qed.

Lemma Math_round_Z (n : Z) : Math_round (inject_Z n) = inject_Z n.
Proof.
  unfold Math_round. f_equal.
  assert (A : (n <= Qfloor (inject_Z n + 0.5))%Z).
  { rewrite <- (Qfloor_Z n) at 1. apply Qfloor_resp_le. lra. }
  assert (B : (Qfloor (inject_Z n + 0.5) < n + 1)%Z).
  { rewrite Zlt_Qlt. eapply Qle_lt_trans; [apply Qfloor_le|].
    rewrite inject_Z_plus. change (inject_Z 1) with 1. lra. }
  lia.
Qed.

(** A product that is a whole number up to 2^53 is not rounded. *)
Lemma round_whole_product (x : Q) (n : Z) :
  (0 <= n <= 2 ^ 53)%Z -> x == inject_Z n ->
  Math_round (binary64 x) = inject_Z n.
Proof.
  intros Hn E. rewrite <- (Math_round_Z n). apply Math_round_comp.
  rewrite <- (binary64_Z n Hn). apply binary64_comp; [|exact E].
  rewrite E. change 0 with (inject_Z 0). rewrite <- Zle_Qle. lia.
Qed.

Lemma or_number_nonzero (v : option Q) : ~ or_number v 1 == 0.
Proof.
  unfold or_number. destruct v as [q|]; [|discriminate].
  destruct (Qeq_bool q 0) eqn:E; [discriminate|].
  intros H. apply Qeq_bool_iff in H. congruence.
Qed.

Lemma or_number_given (d : Q) : ~ d == 0 -> or_number (Some d) 1 = d.
Proof.
  intros H. unfold or_number. destruct (Qeq_bool d 0) eqn:E; [|reflexivity].
  apply Qeq_bool_iff in E. contradiction.
Qed.

Lemma scaled_clear_box (s : State) (x : Canvas2D.context) :
  scaled_for s x ->
  let bw := canvas_width (host s) in
  let bh := canvas_height (host s) in
  let box :=
    Canvas2D.cleared_box (Canvas2D.cur x) 0 0 (bw / dpr s) (bh / dpr s) in
  fst (fst box) == 0 /\ snd (fst box) == 0 /\
  fst (snd box) == bw /\ snd (snd box) == bh.
Proof.
  intros [HT Hnz]. cbv zeta. unfold Canvas2D.cleared_box. rewrite HT.
  unfold Canvas2D.apply, Canvas2D.scaling. cbn.
  repeat split; try ring; field; exact Hnz.
Qed.

Lemma resize_scaled (s : State) (y : Canvas2D.context) :
  scaled_for (exec resize s) (run_ctx (emitted resize s) y).
Proof.
  rewrite resize_calls, resize_redraws.
  destruct (redraw_frame (sized s)) as (Hd & _). split.
  - change (?a :: ?l) with ([a] ++ l). rewrite run_app.
    match goal with |- context [run_ctx (emitted redraw _) ?z] =>
      destruct (redraw_keeps_state (sized s) z) as [Hcur _];
      rewrite Hcur end.
    rewrite Hd. destruct_context y. reflexivity.
  - rewrite Hd. apply or_number_nonzero.
Qed.

Lemma redraw_scaled (u : State) (x : Canvas2D.context) :
  scaled_for u x ->
  scaled_for (exec redraw u) (run_ctx (emitted redraw u) x).
Proof.
  intros [HT Hnz].
  destruct (redraw_frame u) as (Hd & _).
  destruct (redraw_keeps_state u x) as [Hcur _].
  split; [rewrite Hcur, Hd; exact HT | rewrite Hd; exact Hnz].
Qed.

(** Between two events the matrix of the context is the scaling by [dpr],
    and [dpr] is not zero. *)
Lemma session_scaled (s : State) (x : Canvas2D.context) :
  in_session s x -> scaled_for s x.
Proof.
  induction 1 as [s y|s x _ IH|word s x _ IH|w h s x _ IH|d s x _ IH].
  - apply resize_scaled.
  - rewrite nextImage_calls, nextImage_redraws. apply redraw_scaled.
    exact IH.
  - rewrite writeText_calls, writeText_redraws. apply redraw_scaled.
    exact IH.
  - destruct_state s. exact IH.
  - destruct_state s. exact IH.
Qed.

(** Every redraw starts in a context whose matrix is the scaling by [dpr]:
    the one [resize] ends with, whatever the context was, and the ones
    [nextImage] and [writeText] end with in a session. *)
Lemma redraw_starts_scaled :
  (forall s y,
     exec resize s = exec redraw (sized s) /\
     scaled_for (sized s)
       (run_ctx [setTransform (dpr (sized s)) 0 0 (dpr (sized s)) 0 0] y)) /\
  (forall s x, in_session s x ->
     let u := mkState (host s) (dpr s) "" (Z.rem (currentImage s + 1) 3) in
     exec nextImage s = exec redraw u /\ scaled_for u x) /\
  (forall word s x, in_session s x ->
     let u :=
       mkState (host s) (dpr s) (or_string word "") (currentImage s) in
     exec (writeText word) s = exec redraw u /\ scaled_for u x).
Proof.
  split; [|split].
  - intros s y. split; [apply resize_redraws|]. split.
    + destruct_context y. reflexivity.
    + apply or_number_nonzero.
  - intros s x H. split; [apply nextImage_redraws|].
    exact (session_scaled s x H).
  - intros word s x H. split; [apply writeText_redraws|].
    exact (session_scaled s x H).
Qed.

(** C1.  Whatever the layout size and the device pixel ratio, [resize] sets
    the buffer to round(width * scale) by round(height * scale), where scale
    is the device pixel ratio, or 1 when the host has none (or a zero one),
    [*] is the product of two Numbers, which is the exact product rounded
    to binary64, and round gives the integer within a half of its
    argument, the upper one at a tie.  Where the exact product is a
    binary64 number this is round of the exact product, and where it is a
    whole number up to 2^53, as for a whole size at a whole scale, the
    buffer is that number.  The first call [resize] makes on
    the context is [setTransform(scale, 0, 0, scale, 0, 0)], and that
    matrix is the one in force when [resize] returns, whatever the context
    was when the buffer was set.  Under it the logical point (px, py) lands
    on the physical point (scale * px, scale * py), and a logical unit
    square covers scale * scale physical pixels.  A 400 by 300 layout at
    scale 2 gives an 800 by 600 buffer; a 50 by 10 layout at the double
    nearest to 1.15 gives a 57 by 12 buffer. *)
Theorem resize_spec (s : State) (y : Canvas2D.context) :
  let width := canvas_clientWidth (host s) in
  let height := canvas_clientHeight (host s) in
  let scale := or_number (window_devicePixelRatio (host s)) 1 in
  let s' := exec resize s in
  (* the scale factor *)
  dpr s' = scale /\
  ~ scale == 0 /\
  (forall d, window_devicePixelRatio (host s) = Some d -> ~ d == 0 ->
             scale = d) /\
  (* the buffer *)
  canvas_width (host s') = Math_round (multiply width scale) /\
  canvas_height (host s') = Math_round (multiply height scale) /\
  (exists bw bh : Z,
     canvas_width (host s') = inject_Z bw /\
     canvas_height (host s') = inject_Z bh /\
     inject_Z bw - 0.5 <= multiply width scale /\
     multiply width scale < inject_Z bw + 0.5 /\
     inject_Z bh - 0.5 <= multiply height scale /\
     multiply height scale < inject_Z bh + 0.5) /\
  (binary64 (width * scale) == width * scale ->
   canvas_width (host s') = Math_round (width * scale)) /\
  (binary64 (height * scale) == height * scale ->
   canvas_height (host s') = Math_round (height * scale)) /\
  (forall n : Z, (0 <= n <= 2 ^ 53)%Z -> width * scale == inject_Z n ->
     canvas_width (host s') = inject_Z n) /\
  (forall n : Z, (0 <= n <= 2 ^ 53)%Z -> height * scale == inject_Z n ->
     canvas_height (host s') = inject_Z n) /\
  (* the transform *)
  ctx_calls (host s') = ctx_calls (host s) ++ emitted resize s /\
  (exists redrawn,
     emitted resize s = setTransform scale 0 0 scale 0 0 :: redrawn) /\
  Canvas2D.transform (Canvas2D.cur (run_ctx (emitted resize s) y)) =
  Canvas2D.scaling scale /\
  (forall px py,
     fst (Canvas2D.apply (Canvas2D.scaling scale) (px, py)) == scale * px /\
     snd (Canvas2D.apply (Canvas2D.scaling scale) (px, py)) == scale * py) /\
  Canvas2D.det (Canvas2D.scaling scale) == scale * scale /\
  (* the examples *)
  (width = 400 -> height = 300 -> scale = 2 ->
   canvas_width (host s') = 800 /\ canvas_height (host s') = 600) /\
  (width = 50 -> height = 10 -> scale = binary64 1.15 ->
   canvas_width (host s') = 57 /\ canvas_height (host s') = 12).
Proof.
  intros width height scale s'.
  assert (Hf : s' = with_host (log_calls (emitted redraw (sized s)))
                      (sized s)).
  { subst s'. rewrite resize_redraws. apply redraw_logs. }
  assert (Hw : canvas_width (host s') = Math_round (multiply width scale))
    by (rewrite Hf; destruct_state s; reflexivity).
  assert (Hh : canvas_height (host s') = Math_round (multiply height scale))
    by (rewrite Hf; destruct_state s; reflexivity).
  assert (Hd : dpr s' = scale)
    by (rewrite Hf; destruct_state s; reflexivity).
  split; [exact Hd|].
  split; [apply or_number_nonzero|].
  split.
  { intros d Hsome Hnz. subst scale. rewrite Hsome.
    apply or_number_given, Hnz. }
  split; [exact Hw|]. split; [exact Hh|].
  split.
  { exists (Qfloor (multiply width scale + 0.5)),
           (Qfloor (multiply height scale + 0.5)).
    split; [exact Hw|]. split; [exact Hh|].
    destruct (Math_round_nearest (multiply width scale)) as [W1 W2].
    destruct (Math_round_nearest (multiply height scale)) as [H1 H2].
    repeat split; assumption. }
  split; [intros E; rewrite Hw; apply Math_round_comp, E|].
  split; [intros E; rewrite Hh; apply Math_round_comp, E|].
  split; [intros n Hn E; rewrite Hw; apply round_whole_product; assumption|].
  split; [intros n Hn E; rewrite Hh; apply round_whole_product; assumption|].
  split; [exact (step_logs call_resize s)|].
  split; [eexists; apply resize_calls|].
  split.
  { destruct (resize_scaled s y) as [HT _]. fold s' in HT.
    rewrite HT, Hd. reflexivity. }
  split; [intros px py; cbn; split; ring|].
  split; [unfold Canvas2D.det, Canvas2D.scaling; cbn; ring|].
  split.
  - intros Hw4 Hh3 Hs2. rewrite Hw, Hh, Hw4, Hh3, Hs2.
    split; vm_compute; reflexivity.
  - intros Hw5 Hh1 Hs. rewrite Hw, Hh, Hw5, Hh1, Hs.
    split; vm_compute; reflexivity.
Qed.

(** C8.  On a surface of logical size w by h, [drawHintText] paints the text
    once, at (0.7 w, 0.55 h), in bold at max(28, floor(min(w, h) / 6))
    pixels, with [textAlign] 'center' and [textBaseline] 'middle', so that
    the point is the centre of the text on both axes, in the colour #222
    and under the matrix that was in force; the drawing state is restored
    afterwards.  On a 400 by 300 surface the size is 50 and the point is
    (280, 165). *)
Theorem drawHintText_layout (text : string) (s : State)
    (x : Canvas2D.context) :
  let w := canvas_clientWidth (host s) in
  let h := canvas_clientHeight (host s) in
  let x' := run_ctx (emitted (drawHintText text) s) x in
  exec (drawHintText text) s =
    with_host (log_calls (emitted (drawHintText text) s)) s /\
  emitted (drawHintText text) s =
    [save; set_fillStyle (colour "#222"); set_font (overlay_font w h);
     set_textAlign "center"; set_textBaseline "middle";
     fillText text (w * 0.7) (h * 0.55); restore] /\
  weight (overlay_font w h) = "bold" /\
  size_px (overlay_font w h) = Math_max 28 (Math_floor (Math_min w h / 6)) /\
  (exists ds,
     Canvas2D.painted x' =
       Canvas2D.painted x
       ++ [Canvas2D.text_drawn text (w * 0.7) (h * 0.55) ds] /\
     Canvas2D.font ds = overlay_font w h /\
     Canvas2D.textAlign ds = "center" /\
     Canvas2D.textBaseline ds = "middle" /\
     Canvas2D.fillStyle ds = colour "#222" /\
     Canvas2D.transform ds = Canvas2D.transform (Canvas2D.cur x)) /\
  Canvas2D.cur x' = Canvas2D.cur x /\
  size_px (overlay_font 400 300) = 50 /\
  400 * 0.7 == 280 /\
  300 * 0.55 == 165.
Proof.
  destruct_state s. destruct_context x. cbv zeta.
  split; [run_js; flatten_log; reflexivity|].
  split; [reflexivity|]. split; [reflexivity|]. split; [reflexivity|].
  split.
  { run_js. cbn [app]. run_canvas. eexists.
    split; [reflexivity|]. repeat split. }
  split; [run_js; cbn [app]; run_canvas; reflexivity|].
  split; [reflexivity|]. split; reflexivity.
Qed.

(** *** The order of a redraw *)

Lemma truthy_string_empty (t : string) :
  truthy_string t = false <-> t = "".
Proof.
  unfold truthy_string. destruct (String.eqb_spec t ""); cbn; split;
    intros; congruence.
Qed.

(** C2.  A redraw changes nothing but the log of the context, and the calls
    it adds are, in this order: [clearRect] over the buffer size divided by
    [dpr]; the panel, a rounded rectangle of corner radius 12 over the whole
    logical area (0, 0, w, h), filled with the gradient that runs down from
    #ffd at the top edge to #fff6cc at the bottom edge; the illustration
    that the index selects; and the overlay text, present exactly when the
    text is not empty.  The rounded rectangle at (x, y) of size wd by ht
    and radius r is one closed path: the four edges, each r short of the
    corners at both ends, joined by four quadratic curves whose control
    points are the corners; for the panel these are the edges of the
    logical area, 12 short of its corners (0, 0), (w, 0), (w, h) and
    (0, h).  What gets painted is, in this order, the cleared rectangle,
    the panel with that gradient, the shapes of the illustration, and last
    the text if there is one.  In a context whose matrix is the scaling by
    [dpr], as it is at every redraw ([redraw_starts_scaled]), the cleared
    rectangle is the whole physical buffer. *)
Theorem redraw_order (s : State) (x : Canvas2D.context) :
  let w := canvas_clientWidth (host s) in
  let h := canvas_clientHeight (host s) in
  let bw := canvas_width (host s) in
  let bh := canvas_height (host s) in
  let overlay :=
    if truthy_string (hintText s)
    then emitted (drawHintText (hintText s)) s else [] in
  let x' := run_ctx (emitted redraw s) x in
  exec redraw s = with_host (log_calls (emitted redraw s)) s /\
  emitted redraw s =
    [clearRect 0 0 (bw / dpr s) (bh / dpr s)]
    ++ [save; set_fillStyle (gradient_style (panel_gradient h))]
    ++ emitted (roundRect 0 0 w h 12) s ++ [fill]
    ++ emitted (draw (selected (currentImage s)) w h) s
    ++ [restore]
    ++ overlay /\
  (forall x0 y0 wd ht r,
     emitted (roundRect x0 y0 wd ht r) s =
     [beginPath;
      moveTo (x0 + r) y0;
      lineTo (x0 + wd - r) y0;
      quadraticCurveTo (x0 + wd) y0 (x0 + wd) (y0 + r);
      lineTo (x0 + wd) (y0 + ht - r);
      quadraticCurveTo (x0 + wd) (y0 + ht) (x0 + wd - r) (y0 + ht);
      lineTo (x0 + r) (y0 + ht);
      quadraticCurveTo x0 (y0 + ht) x0 (y0 + ht - r);
      lineTo x0 (y0 + r);
      quadraticCurveTo x0 y0 (x0 + r) y0;
      closePath]) /\
  (exists top right bottom left,
     Canvas2D.current_path (run_ctx (emitted (roundRect 0 0 w h 12) s) x) =
     map (fun c => (c, Canvas2D.transform (Canvas2D.cur x)))
       [moveTo (fst (fst top)) (snd (fst top));
        lineTo (fst (snd top)) (snd (snd top));
        quadraticCurveTo (0 + w) 0 (fst (fst right)) (snd (fst right));
        lineTo (fst (snd right)) (snd (snd right));
        quadraticCurveTo (0 + w) (0 + h)
          (fst (fst bottom)) (snd (fst bottom));
        lineTo (fst (snd bottom)) (snd (snd bottom));
        quadraticCurveTo 0 (0 + h) (fst (fst left)) (snd (fst left));
        lineTo (fst (snd left)) (snd (snd left));
        quadraticCurveTo 0 0 (fst (fst top)) (snd (fst top));
        closePath] /\
     0 + w == w /\ 0 + h == h /\
     same_segment top ((12, 0), (w - 12, 0)) /\
     same_segment right ((w, 12), (w, h - 12)) /\
     same_segment bottom ((w - 12, h), (12, h)) /\
     same_segment left ((0, h - 12), (0, 12))) /\
  panel_gradient h =
    mkGradient (linear 0 0 0 h) [(0, "#ffd"); (1, "#fff6cc")] /\
  (overlay = [] <-> hintText s = "") /\
  (exists ds shapes,
     Canvas2D.painted x' =
       Canvas2D.painted x
       ++ [Canvas2D.cleared 0 0 (bw / dpr s) (bh / dpr s) (Canvas2D.cur x);
           Canvas2D.filled
             (Canvas2D.current_path
                (run_ctx (emitted (roundRect 0 0 w h 12) s) x)) ds]
       ++ shapes
       ++ (if truthy_string (hintText s)
           then [Canvas2D.text_drawn (hintText s) (w * 0.7) (h * 0.55)
                   (Canvas2D.cur (run_ctx
                      [set_fillStyle (colour "#222");
                       set_font (overlay_font w h);
                       set_textAlign "center";
                       set_textBaseline "middle"] x))]
           else []) /\
     Canvas2D.fillStyle ds = gradient_style (panel_gradient h) /\
     Canvas2D.transform ds = Canvas2D.transform (Canvas2D.cur x) /\
     shapes <> [] /\
     Forall Canvas2D.is_shape shapes) /\
  (scaled_for s x ->
   let box :=
     Canvas2D.cleared_box (Canvas2D.cur x) 0 0 (bw / dpr s) (bh / dpr s) in
   fst (fst box) == 0 /\ snd (fst box) == 0 /\
   fst (snd box) == bw /\ snd (snd box) == bh).
Proof.
  cbv zeta. split; [apply redraw_logs|].
  split.
  { rewrite redraw_calls. unfold background_with. cbv zeta.
    rewrite <- !app_assoc. reflexivity. }
  split; [intros x0 y0 wd ht r; destruct_state s; reflexivity|].
  split.
  { exists ((0 + 12, 0), (0 + canvas_clientWidth (host s) - 12, 0)),
           ((0 + canvas_clientWidth (host s), 0 + 12),
            (0 + canvas_clientWidth (host s),
             0 + canvas_clientHeight (host s) - 12)),
           ((0 + canvas_clientWidth (host s) - 12,
             0 + canvas_clientHeight (host s)),
            (0 + 12, 0 + canvas_clientHeight (host s))),
           ((0, 0 + canvas_clientHeight (host s) - 12), (0, 0 + 12)).
    split; [destruct_state s; destruct_context x; reflexivity|].
    unfold same_segment. cbn [fst snd].
    repeat split; ring. }
  split; [reflexivity|].
  split.
  { destruct (truthy_string (hintText s)) eqn:E.
    - split.
      + destruct_state s. run_js. cbn [app]. discriminate.
      + intros H. apply truthy_string_empty in H. congruence.
    - split; [intros _; apply truthy_string_empty, E | reflexivity]. }
  split; [|apply scaled_clear_box].
  destruct_state s. destruct_context x. run_js; unroll.
  destruct (ci =? 0)%Z; [|destruct (ci =? 1)%Z]; run_js;
    destruct (truthy_string hi); run_js; cbn [app]; run_canvas;
    flatten_log;
    match goal with
    | |- exists ds shapes,
           _ ++ (_ :: Canvas2D.filled _ ?D :: ?M) = _ /\ _ =>
        exists D;
        first [ exists M; split; [reflexivity|]
              | exists (removelast M); split; [reflexivity|] ]
    end;
    cbn [removelast];
    (split; [reflexivity|]); (split; [reflexivity|]);
    (split; [discriminate|]); repeat constructor.
Qed.

(** *** Determinism *)

Lemma redraw_step_agree (u1 u2 : State) :
  agree u1 u2 ->
  agree (exec redraw u1) (exec redraw u2) /\
  ctx_calls (host (exec redraw u1)) =
    ctx_calls (host u1) ++ emitted redraw u1 /\
  ctx_calls (host (exec redraw u2)) =
    ctx_calls (host u2) ++ emitted redraw u1.
Proof.
  intros H. pose proof (redraw_agree u1 u2 H) as E.
  rewrite !redraw_logs, <- E. clear E.
  destruct_state u1. destruct_state u2. destruct_agree H.
  repeat split.
Qed.

(** [resize] overwrites the buffer size and [dpr]: what it does depends on
    the environment and the scene alone. *)
Lemma resize_agree (s1 s2 : State) :
  same_environment (host s1) (host s2) ->
  hintText s1 = hintText s2 ->
  currentImage s1 = currentImage s2 ->
  agree (exec resize s1) (exec resize s2) /\
  exists cmds,
    ctx_calls (host (exec resize s1)) = ctx_calls (host s1) ++ cmds /\
    ctx_calls (host (exec resize s2)) = ctx_calls (host s2) ++ cmds.
Proof.
  intros (Hd & Hw & Hh) Ht Hi. rewrite !resize_redraws.
  destruct (redraw_step_agree (sized s1) (sized s2)) as (Ha & H1 & H2).
  { destruct_state s1. destruct_state s2.
    cbn [host window_devicePixelRatio canvas_clientWidth canvas_clientHeight
         hintText currentImage] in *. subst. repeat split. }
  split; [exact Ha|]. rewrite H1, H2.
  destruct_state s1. destruct_state s2. unfold sized.
  cbn [host window_devicePixelRatio canvas_clientWidth canvas_clientHeight
       hintText currentImage ctx_calls] in *. subst.
  rewrite <- !app_assoc. eexists. split; reflexivity.
Qed.

Lemma step_agree (ev : event) (s1 s2 : State) :
  agree s1 s2 ->
  agree (exec (step ev) s1) (exec (step ev) s2) /\
  exists cmds,
    ctx_calls (host (exec (step ev) s1)) = ctx_calls (host s1) ++ cmds /\
    ctx_calls (host (exec (step ev) s2)) = ctx_calls (host s2) ++ cmds.
Proof.
  intros H. destruct ev as [| |word|w h|d]; cbn [step].
  - apply resize_agree; apply H.
  - rewrite !nextImage_redraws.
    match goal with |- context [agree (exec redraw ?a) (exec redraw ?b)] =>
      destruct (redraw_step_agree a b) as (Ha & H1 & H2) end.
    { destruct_state s1. destruct_state s2. destruct_agree H.
      repeat split. }
    split; [exact Ha|]. rewrite H1, H2. cbn [host].
    eexists. split; reflexivity.
  - rewrite !writeText_redraws.
    match goal with |- context [agree (exec redraw ?a) (exec redraw ?b)] =>
      destruct (redraw_step_agree a b) as (Ha & H1 & H2) end.
    { destruct_state s1. destruct_state s2. destruct_agree H.
      repeat split. }
    split; [exact Ha|]. rewrite H1, H2. cbn [host].
    eexists. split; reflexivity.
  - destruct_state s1. destruct_state s2. destruct_agree H.
    split; [repeat split|].
    exists []. cbn. rewrite !app_nil_r. split; reflexivity.
  - destruct_state s1. destruct_state s2. destruct_agree H.
    split; [repeat split|].
    exists []. cbn. rewrite !app_nil_r. split; reflexivity.
Qed.

Lemma run_events_agree (evs : list event) :
  forall s1 s2, agree s1 s2 ->
  exists cmds,
    ctx_calls (host (run_events evs s1)) = ctx_calls (host s1) ++ cmds /\
    ctx_calls (host (run_events evs s2)) = ctx_calls (host s2) ++ cmds.
Proof.
  induction evs as [|ev evs IH]; intros s1 s2 H.
  - exists []. cbn. rewrite !app_nil_r. split; reflexivity.
  - destruct (step_agree ev s1 s2 H) as (Ha & c1 & E1 & E2).
    destruct (IH _ _ Ha) as (c2 & F1 & F2).
    exists (c1 ++ c2). cbn [run_events fold_left].
    fold (run_events evs (exec (step ev) s1)).
    fold (run_events evs (exec (step ev) s2)).
    rewrite F1, F2, E1, E2, <- !app_assoc. split; reflexivity.
Qed.

(** C7.  On two hosts that offer the same layout size and the same scale
    factor, the module is constructed and then driven by the same sequence
    of events (calls of [resize], [nextImage], [writeText], and changes of
    the layout or of the scale factor in between): both runs return, and
    the calls they make on the context are the same list.  Nothing else
    enters: not the buffer size, the style or the calls left by an earlier
    run, and no clock or random source. *)
Theorem deterministic (h1 h2 : Host) (evs : list event) :
  same_environment h1 h2 ->
  exists s1 s2 cmds,
    initCanvas canvas_2d h1 = Return s1 /\
    initCanvas canvas_2d h2 = Return s2 /\
    ctx_calls (host (run_events evs s1)) = ctx_calls h1 ++ cmds /\
    ctx_calls (host (run_events evs s2)) = ctx_calls h2 ++ cmds.
Proof.
  intros (Hd & Hw & Hh).
  destruct h1 as [d1 cw1 ch1 bw1 bh1 sw1 sh1 l1].
  destruct h2 as [d2 cw2 ch2 bw2 bh2 sw2 sh2 l2].
  cbn [window_devicePixelRatio canvas_clientWidth canvas_clientHeight]
    in Hd, Hw, Hh. subst.
  eexists. eexists. cbn [initCanvas].
  match goal with
  | |- exists cmds, Return (exec resize ?a) = _ /\
                    Return (exec resize ?b) = _ /\ _ =>
      destruct (resize_agree a b) as (Ha & c1 & E1 & E2);
        [cbv [log_call]; repeat split | reflexivity | reflexivity |]
  end.
  destruct (run_events_agree evs _ _ Ha) as (c2 & F1 & F2).
  exists ([set_lineCap "round"; set_lineJoin "round"] ++ c1 ++ c2).
  split; [reflexivity|]. split; [reflexivity|].
  rewrite F1, F2, E1, E2. cbv [log_call]. cbn [host ctx_calls].
  rewrite <- !app_assoc. split; reflexivity.
Qed.

(** *** Strings: concatenation, trimming and lower case *)


Lemma cat_assoc (a b c : string) :
  Str.cat (Str.cat a b) c = Str.cat a (Str.cat b c).
Proof.
  unfold Str.cat. induction a as [|x a IH]; cbn; [reflexivity|].
  rewrite IH. reflexivity.
Qed.


Lemma trimStart_whitespace (s : string) :
  Str.all_whitespace s = true -> Str.trimStart s = "".
Proof.
  induction s as [|c s IH]; cbn; [reflexivity|].
  destruct (Str.is_whitespace c); cbn; [exact IH | discriminate].
Qed.

Lemma trimEnd_whitespace (s : string) :
  Str.all_whitespace s = true -> Str.trimEnd s = "".
Proof.
  induction s as [|c s IH]; cbn; [reflexivity|].
  destruct (Str.is_whitespace c); cbn; [|discriminate].
  intros H. rewrite (IH H). reflexivity.
Qed.

Lemma trimStart_pad (pre s : string) :
  Str.all_whitespace pre = true ->
  Str.trimStart (Str.cat pre s) = Str.trimStart s.
Proof.
  unfold Str.cat. induction pre as [|c pre IH]; cbn; [reflexivity|].
  destruct (Str.is_whitespace c); cbn; [exact IH | discriminate].
Qed.

Lemma trimEnd_pad (s post : string) :
  Str.all_whitespace post = true ->
  Str.trimEnd (Str.cat s post) = Str.trimEnd s.
Proof.
  intros H. unfold Str.cat. induction s as [|c s IH]; cbn.
  - apply trimEnd_whitespace, H.
  - rewrite IH. reflexivity.
Qed.

Lemma trim_pad_end (s post : string) :
  Str.all_whitespace post = true ->
  Str.trim (Str.cat s post) = Str.trim s.
Proof.
  intros H. unfold Str.trim. induction s as [|c s IH].
  - cbn. rewrite (trimStart_whitespace post H). reflexivity.
  - change (Str.cat (String c s) post) with (String c (Str.cat s post)).
    cbn [Str.trimStart]. destruct (Str.is_whitespace c); [exact IH|].
    change (String c (Str.cat s post)) with (Str.cat (String c s) post).
    apply trimEnd_pad, H.
Qed.

Lemma trim_pad (pre s post : string) :
  Str.all_whitespace pre = true ->
  Str.all_whitespace post = true ->
  Str.trim (Str.cat pre (Str.cat s post)) = Str.trim s.
Proof.
  intros Hpre Hpost. unfold Str.trim at 1. rewrite (trimStart_pad _ _ Hpre).
  apply trim_pad_end, Hpost.
Qed.

Lemma trimEnd_empty (s : string) :
  Str.trimEnd s = "" <-> Str.all_whitespace s = true.
Proof.
  induction s as [|c s IH]; cbn; [tauto|].
  destruct (Str.trimEnd s) eqn:E.
  - destruct (Str.is_whitespace c); cbn.
    + split; intros _; [apply IH|]; reflexivity.
    + split; discriminate.
  - split; [discriminate|]. intros H.
    apply andb_true_iff in H. destruct H as [_ H].
    apply IH in H. discriminate.
Qed.

Lemma trimStart_all_whitespace (s : string) :
  Str.all_whitespace (Str.trimStart s) = true ->
  Str.all_whitespace s = true.
Proof.
  induction s as [|c s IH]; cbn; [reflexivity|].
  destruct (Str.is_whitespace c) eqn:E; cbn; [exact IH|].
  rewrite E. discriminate.
Qed.

Lemma trim_empty (s : string) :
  Str.trim s = "" <-> Str.all_whitespace s = true.
Proof.
  unfold Str.trim. rewrite trimEnd_empty. split.
  - apply trimStart_all_whitespace.
  - intros H. rewrite (trimStart_whitespace s H). reflexivity.
Qed.

Lemma lower_char_idem (c : Ascii.ascii) :
  Str.lower_char (Str.lower_char c) = Str.lower_char c.
Proof.
  destruct c as [[] [] [] [] [] [] [] []]; reflexivity.
Qed.

Lemma lower_char_whitespace (c : Ascii.ascii) :
  Str.is_whitespace (Str.lower_char c) = Str.is_whitespace c.
Proof.
  destruct c as [[] [] [] [] [] [] [] []]; reflexivity.
Qed.

Lemma toLowerCase_idem (s : string) :
  Str.toLowerCase (Str.toLowerCase s) = Str.toLowerCase s.
Proof.
  induction s as [|c s IH]; cbn; [reflexivity|].
  rewrite lower_char_idem, IH. reflexivity.
Qed.

Lemma toLowerCase_trimStart (s : string) :
  Str.trimStart (Str.toLowerCase s) = Str.toLowerCase (Str.trimStart s).
Proof.
  induction s as [|c s IH]; cbn; [reflexivity|].
  rewrite lower_char_whitespace.
  destruct (Str.is_whitespace c); [exact IH | reflexivity].
Qed.

Lemma toLowerCase_trimEnd (s : string) :
  Str.trimEnd (Str.toLowerCase s) = Str.toLowerCase (Str.trimEnd s).
Proof.
  induction s as [|c s IH]; cbn; [reflexivity|].
  rewrite IH, lower_char_whitespace.
  destruct (Str.trimEnd s); cbn.
  - destruct (Str.is_whitespace c); reflexivity.
  - reflexivity.
Qed.

Lemma toLowerCase_trim (s : string) :
  Str.trim (Str.toLowerCase s) = Str.toLowerCase (Str.trim s).
Proof.
  unfold Str.trim. rewrite toLowerCase_trimStart. apply toLowerCase_trimEnd.
Qed.


Lemma trimEnd_idem (s : string) :
  Str.trimEnd (Str.trimEnd s) = Str.trimEnd s.
Proof.
  induction s as [|c s IH]; [reflexivity|].
  cbn [Str.trimEnd]. destruct (Str.trimEnd s) as [|c' t] eqn:E.
  - destruct (Str.is_whitespace c) eqn:Ec; [reflexivity|].
    cbn. rewrite Ec. reflexivity.
  - change (Str.trimEnd (String c (String c' t)))
      with (match Str.trimEnd (String c' t) with
            | EmptyString => if Str.is_whitespace c then EmptyString
                             else String c EmptyString
            | String c'' t' => String c (String c'' t')
            end).
    rewrite IH. reflexivity.
Qed.

Lemma trimStart_head (s : string) :
  Str.trimStart s = "" \/
  exists c r, Str.trimStart s = String c r /\ Str.is_whitespace c = false.
Proof.
  induction s as [|c s IH]; [left; reflexivity|].
  cbn. destruct (Str.is_whitespace c) eqn:E; [exact IH|].
  right. exists c, s. split; [reflexivity | exact E].
Qed.

Lemma trim_idem (s : string) : Str.trim (Str.trim s) = Str.trim s.
Proof.
  unfold Str.trim.
  destruct (trimStart_head s) as [->|(c & r & -> & Hc)]; [reflexivity|].
  assert (H : Str.trimStart (Str.trimEnd (String c r))
              = Str.trimEnd (String c r)).
  { cbn [Str.trimEnd]. destruct (Str.trimEnd r); rewrite ?Hc; cbn;
      rewrite Hc; reflexivity. }
  rewrite H. apply trimEnd_idem.
Qed.

(** A trimmed string that is not empty has a character that is no white
    space. *)
Lemma trim_not_blank (s : string) :
  Str.trim s = "" \/ Str.all_whitespace (Str.trim s) = false.
Proof.
  destruct (Str.all_whitespace (Str.trim s)) eqn:E; [left|right; reflexivity].
  apply trim_empty in E. rewrite trim_idem in E. exact E.
Qed.

(** *** The handlers of the sketch *)

Lemma drawHintText_calls (t : string) (s : State) :
  emitted (drawHintText t) s =
  overlay_calls t (canvas_clientWidth (host s)) (canvas_clientHeight (host s)).
Proof. destruct_state s. reflexivity. Qed.

Lemma background_with_host (f : fruit) (s u : State) :
  canvas_clientWidth (host u) = canvas_clientWidth (host s) ->
  canvas_clientHeight (host u) = canvas_clientHeight (host s) ->
  background_with f u = background_with f s.
Proof.
  destruct_state s. destruct_state u. cbn [host canvas_clientWidth
    canvas_clientHeight]. intros -> ->.
  unfold background_with. destruct f; run_js; unroll; reflexivity.
Qed.

(** X1.  A click on the write button redraws the canvas with the typed text,
    trimmed, as the overlay: the page and the illustration stay as they
    are, and the calls added to the log are those of one redraw, which end
    with the seven calls of the overlay at (0.7 w, 0.55 h) when the field
    holds a character that is no white space, and with the illustration
    when the field is empty or blank.  A blank field thus wipes the
    overlay off. *)
Theorem write_click_overlay (p : Page) (s : State) :
  let typed := textInput_value (sketch p) in
  let w := canvas_clientWidth (host s) in
  let h := canvas_clientHeight (host s) in
  let s' := snd (write_click p s) in
  fst (write_click p s) = p /\
  hintText s' = Str.trim typed /\
  currentImage s' = currentImage s /\
  dpr s' = dpr s /\
  ctx_calls (host s') =
  ctx_calls (host s)
  ++ [clearRect 0 0 (canvas_width (host s) / dpr s)
        (canvas_height (host s) / dpr s)]
  ++ background_with (selected (currentImage s)) s
  ++ (if Str.all_whitespace typed then []
      else overlay_calls (Str.trim typed) w h).
Proof.
  cbv zeta. unfold write_click. cbn [fst snd].
  split; [reflexivity|].
  rewrite writeText_redraws, or_string_empty.
  match goal with |- context [exec redraw ?u] =>
    destruct (redraw_frame u) as (Hd & Ht & Hc & Hl);
    rewrite Hd, Ht, Hc, Hl, (redraw_calls u),
      (background_with_host _ s u) by reflexivity;
    rewrite (drawHintText_calls _ u)
  end.
  cbn [host dpr hintText currentImage].
  repeat (split; [reflexivity|]).
  do 3 f_equal.
  destruct (Str.all_whitespace (textInput_value (sketch p))) eqn:E.
  - apply trim_empty in E. rewrite E. reflexivity.
  - destruct (truthy_string _) eqn:T; [reflexivity|].
    apply truthy_string_empty, trim_empty in T. congruence.
Qed.

Lemma page_step_overlay (ev : page_event) (p : Page) (s : State) :
  Str.trim (hintText s) = hintText s ->
  valid_index (currentImage s) ->
  Str.trim (hintText (snd (page_step ev (p, s)))) =
  hintText (snd (page_step ev (p, s))) /\
  valid_index (currentImage (snd (page_step ev (p, s)))).
Proof.
  intros Ht Hv. destruct ev as [text| | |]; cbn [page_step].
  - split; assumption.
  - unfold write_click. cbn [snd].
    rewrite writeText_redraws, or_string_empty.
    match goal with |- context [exec redraw ?u] =>
      destruct (redraw_frame u) as (_ & Hh & Hc & _) end.
    rewrite Hh, Hc. cbn [hintText currentImage].
    split; [apply trim_idem | exact Hv].
  - unfold next_image_click. destruct p as [[t nb wb] sp qz ls]. cbn [snd].
    rewrite nextImage_redraws.
    match goal with |- context [exec redraw ?u] =>
      destruct (redraw_frame u) as (_ & Hh & Hc & _) end.
    rewrite Hh, Hc. cbn [hintText currentImage].
    split; [reflexivity | apply next_valid, Hv].
  - unfold window_resize. cbn [snd]. rewrite resize_redraws.
    match goal with |- context [exec redraw ?u] =>
      destruct (redraw_frame u) as (_ & Hh & Hc & _) end.
    rewrite Hh, Hc. destruct_state s. split; assumption.
Qed.

Lemma page_step_frame (ev : page_event) (p : Page) (s : State) :
  let p' := fst (page_step ev (p, s)) in
  speech p' = speech p /\ quiz p' = quiz p /\
  listeners p' = listeners p /\
  nextBtn_disabled (sketch p') = nextBtn_disabled (sketch p) /\
  writeBtn_disabled (sketch p') = writeBtn_disabled (sketch p).
Proof.
  destruct p as [[t nb wb] sp qz ls].
  destruct ev; cbn; repeat split.
Qed.

Lemma initApp_started (canvas : surface) (p p0 : Page) (h : Host)
    (s0 : State) :
  initApp canvas p h = Started p0 s0 ->
  initCanvas canvas_2d h = Return s0 /\
  p0 = mkPage (mkSketch (textInput_value (sketch p)) false false)
         (speech p) (quiz p)
         (listeners p ++ [("sketch-write", "click"); ("sketch-next", "click");
                          ("window", "resize")]).
Proof.
  destruct p as [[t nb wb] sp qz ls].
  destruct canvas; cbn [initApp initCanvas]; try discriminate.
  intros H. injection H as <- <-. split; [reflexivity|].
  cbn. rewrite <- !app_assoc. reflexivity.
Qed.

Lemma page_run_overlay (evs : list page_event) (p : Page) (s : State) :
  Str.trim (hintText s) = hintText s ->
  valid_index (currentImage s) ->
  let p' := fst (page_run evs (p, s)) in
  let s' := snd (page_run evs (p, s)) in
  Str.trim (hintText s') = hintText s' /\
  valid_index (currentImage s') /\
  speech p' = speech p /\ quiz p' = quiz p /\
  listeners p' = listeners p /\
  nextBtn_disabled (sketch p') = nextBtn_disabled (sketch p) /\
  writeBtn_disabled (sketch p') = writeBtn_disabled (sketch p).
Proof.
  cbv zeta. revert p s. induction evs as [|ev evs IH]; intros p s Ht Hv.
  - cbn [page_run fold_left fst snd]. repeat split; assumption.
  - change (page_run (ev :: evs) (p, s))
      with (page_run evs (page_step ev (p, s))).
    destruct (page_step_overlay ev p s Ht Hv) as [Ht' Hv'].
    pose proof (page_step_frame ev p s) as F. cbv zeta in F.
    destruct F as (F1 & F2 & F3 & F4 & F5).
    destruct (page_step ev (p, s)) as [p1 s1]. cbn [fst snd] in *.
    destruct (IH p1 s1 Ht' Hv') as (I1 & I2 & I3 & I4 & I5 & I6 & I7).
    repeat split; congruence.
Qed.

(** X2.  While the sketch is in use, the overlay text is always a trimmed
    string: it is empty or holds a character that is no white space, so
    that the canvas never carries an overlay of blanks; the illustration
    index is one of 0, 1, 2; the two buttons stay enabled; and the handlers
    of the sketch touch neither the speech panel, nor the quiz, nor the
    listeners. *)
Theorem sketch_session (canvas : surface) (p p0 : Page) (h : Host)
    (s0 : State) (evs : list page_event) :
  initApp canvas p h = Started p0 s0 ->
  let p' := fst (page_run evs (p0, s0)) in
  let s' := snd (page_run evs (p0, s0)) in
  Str.trim (hintText s') = hintText s' /\
  (hintText s' = "" \/ Str.all_whitespace (hintText s') = false) /\
  valid_index (currentImage s') /\
  nextBtn_disabled (sketch p') = false /\
  writeBtn_disabled (sketch p') = false /\
  speech p' = speech p /\ quiz p' = quiz p /\
  listeners p' = listeners p0.
Proof.
  intros H. destruct (initApp_started _ _ _ _ _ H) as [Hs Hp].
  assert (Ht : Str.trim (hintText s0) = hintText s0).
  { cbn [initCanvas] in Hs. injection Hs as <-.
    rewrite resize_redraws.
    match goal with |- context [exec redraw ?u] =>
      destruct (redraw_frame u) as (_ & Hh & _ & _) end.
    rewrite Hh. reflexivity. }
  assert (Hv : valid_index (currentImage s0))
    by (rewrite (initCanvas_index h s0 Hs); left; reflexivity).
  pose proof (page_run_overlay evs p0 s0 Ht Hv) as R. cbv zeta in R.
  destruct R as (R1 & R2 & R3 & R4 & R5 & R6 & R7). cbv zeta.
  rewrite R3, R4, R6, R7. subst p0.
  cbn [sketch speech quiz nextBtn_disabled writeBtn_disabled].
  split; [exact R1|]. split; [rewrite <- R1; apply trim_not_blank|].
  split; [exact R2|]. repeat split. exact R5.
Qed.

(** X3.  Without a canvas that has a 2D context, loading the page starts
    nothing: the error of [initCanvas] leaves the handler before
    [initSpeech] and [initVideo] are reached, so that the page and the
    host are exactly as they were; no listener is registered, the two
    buttons of the sketch are not enabled, no recognition object is made
    and no video is loaded. *)
Theorem DOMContentLoaded_without_canvas (canvas : surface)
    (supported : bool) (p : Page) (h : Host) :
  canvas <> canvas_2d ->
  exists e, DOMContentLoaded canvas supported p h = Failed e p h /\
            initCanvas canvas h = Throw e h.
Proof.
  intros Hc. destruct canvas; try contradiction;
    eexists; split; reflexivity.
Qed.

(** X4.  With a canvas that has a 2D context and a video index within the
    list, loading the page starts its three parts: the module of the
    canvas is the one [initCanvas] returns; the two buttons of the sketch
    are enabled; the recognition object exists exactly when the browser
    supports it, and listens for Spanish; the video of the index is loaded
    once; and sixteen listeners are registered, in the order of the three
    initialisations.  With a video index outside the list, the sketch and
    the speech panel are started and [initVideo] throws after the
    listeners of the transport are registered, before those of the check
    and next buttons. *)
Theorem DOMContentLoaded_starts (supported : bool) (p : Page) (h : Host) :
  exists s, initCanvas canvas_2d h = Return s /\
  let ls :=
    listeners p
    ++ [("sketch-write", "click"); ("sketch-next", "click");
        ("window", "resize");
        ("hear-btn", "click"); ("speak-btn", "click");
        ("next-word-btn", "click");
        ("video-play", "click"); ("video-stop", "click");
        ("prompt-video", "timeupdate"); ("prompt-video", "loadedmetadata");
        ("prompt-video", "ended"); ("prompt-video", "play");
        ("prompt-video", "pause"); ("video-progress", "input")] in
  let sk := mkSketch (textInput_value (sketch p)) false false in
  let sp := Speech.setup supported (speech p) in
  Speech.recognition sp =
    (if supported then Some (Speech.mkRecognition "es-ES" false false)
     else None) /\
  match Video.item_at (Video.currentVideoIndex (quiz p)) with
  | Some it =>
      exists qz,
        DOMContentLoaded canvas_2d supported p h =
        Started
          (mkPage sk sp qz
             (ls ++ [("video-check", "click"); ("video-next", "click")])) s /\
        Video.load_initial (quiz p) = ok qz /\
        Video.video_src qz = Video.video it /\
        Video.video_loads qz = S (Video.video_loads (quiz p))
  | None =>
      DOMContentLoaded canvas_2d supported p h =
      Failed TypeError (mkPage sk sp (quiz p) ls) (host s)
  end.
Proof.
  destruct p as [[t nb wb] [i w st sc rt rc r n u] [vi vs vl pb av rv rcv] ls].
  eexists. split; [reflexivity|]. cbv zeta.
  split; [destruct supported; reflexivity|].
  cbn [quiz Video.currentVideoIndex].
  unfold DOMContentLoaded, initApp.
  cbn [initCanvas].
  cbv [initSpeech initVideo addEventListener quiz Video.load_initial].
  destruct (Video.item_at vi) as [it|] eqn:E.
  - eexists. split; [|split; [reflexivity|split; reflexivity]].
    cbn [sketch speech textInput_value listeners].
    rewrite <- !app_assoc. reflexivity.
  - cbn [sketch speech textInput_value listeners].
    rewrite <- !app_assoc. reflexivity.
Qed.

End InitCanvas.

(** ** The properties on the sample host *)

Lemma resize_spec_witness :
  let s' := exec (resize sample_PI sample_cos sample_sin)
              (mkState sample_host 1 "" 0) in
  let t' := exec (resize sample_PI sample_cos sample_sin)
              (mkState (mkHost (Some (binary64 1.15)) 50 10 300 150
                          None None []) 1 "" 0) in
  (canvas_width (host s') = 800 /\ canvas_height (host s') = 600) /\
  (canvas_width (host t') = 57 /\ canvas_height (host t') = 12).
Proof.
  split.
  - pose proof (resize_spec sample_PI sample_cos sample_sin
                  (mkState sample_host 1 "" 0) fresh_context) as H.
    cbv zeta in H.
    destruct H
      as (_ & _ & _ & _ & _ & _ & _ & _ & _ & _ & _ & _ & _ & _ & _ & H & _).
    apply H; reflexivity.
  - pose proof (resize_spec sample_PI sample_cos sample_sin
                  (mkState (mkHost (Some (binary64 1.15)) 50 10 300 150
                              None None []) 1 "" 0) fresh_context) as H.
    cbv zeta in H.
    destruct H
      as (_ & _ & _ & _ & _ & _ & _ & _ & _ & _ & _ & _ & _ & _ & _ & _ & H).
    apply H; vm_compute; reflexivity.
Defined.

Lemma redraw_order_witness :
  scaled_for sample_state sample_context /\
  let box := Canvas2D.cleared_box (Canvas2D.cur sample_context) 0 0
               (800 / 2) (600 / 2) in
  fst (fst box) == 0 /\ snd (fst box) == 0 /\
  fst (snd box) == 800 /\ snd (snd box) == 600.
Proof.
  assert (Hs : scaled_for sample_state sample_context).
  { split; [reflexivity|]. intros H. vm_compute in H. discriminate H. }
  split; [exact Hs|].
  pose proof (redraw_order sample_PI sample_cos sample_sin
                sample_state sample_context) as H.
  cbv zeta in H.
  destruct H as (_ & _ & _ & _ & _ & _ & _ & H).
  exact (H Hs).
Defined.

Lemma nextImage_spec_witness :
  valid_index (currentImage sample_state) /\
  currentImage (exec (nextImage sample_PI sample_cos sample_sin)
                  sample_state) = 1%Z /\
  hintText (exec (nextImage sample_PI sample_cos sample_sin)
              sample_state) = "".
Proof.
  assert (Hv : valid_index (currentImage sample_state))
    by (left; reflexivity).
  split; [exact Hv|].
  pose proof (nextImage_spec sample_PI sample_cos sample_sin sample_state)
    as H.
  cbv zeta in H. destruct H as (Ht & _ & Hi & _).
  split; [exact (Hi Hv) | exact Ht].
Defined.

Lemma index_always_valid_witness :
  valid_index
    (currentImage
       (exec (step sample_PI sample_cos sample_sin call_nextImage)
          (exec (resize sample_PI sample_cos sample_sin)
             (mkState
                (log_call (set_lineJoin "round")
                   (log_call (set_lineCap "round") sample_host))
                2 "" 0)))).
Proof.
  apply (proj2 (proj2 (index_always_valid
                         sample_PI sample_cos sample_sin))).
  apply reachable_step.
  apply (reachable_init sample_PI sample_cos sample_sin sample_host).
  reflexivity.
Defined.

Lemma nextImage_period_witness :
  valid_index (currentImage sample_state) /\
  currentImage
    (nextImage_times sample_PI sample_cos sample_sin 3 sample_state) =
  currentImage sample_state.
Proof.
  assert (Hv : valid_index (currentImage sample_state))
    by (left; reflexivity).
  split; [exact Hv|].
  exact (proj1 (nextImage_period sample_PI sample_cos sample_sin
                  sample_state Hv)).
Defined.

Lemma initCanvas_rejects_witness :
  no_element <> canvas_2d /\
  initCanvas sample_PI sample_cos sample_sin no_element sample_host =
  Throw (Error "Canvas element not found") sample_host.
Proof.
  assert (Hne : no_element <> canvas_2d) by discriminate.
  split; [exact Hne|].
  exact (proj2 (initCanvas_rejects sample_PI sample_cos sample_sin
                  no_element sample_host Hne) eq_refl).
Defined.

Lemma dispatch_total_witness :
  selected (currentImage sample_state) = apple.
Proof.
  pose proof (dispatch_total sample_PI sample_cos sample_sin sample_state)
    as H.
  cbv zeta in H. destruct H as (_ & _ & H & _).
  apply H. reflexivity.
Defined.

Lemma deterministic_witness :
  same_environment sample_host used_host /\
  exists s1 s2 cmds,
    initCanvas sample_PI sample_cos sample_sin canvas_2d sample_host =
      Return s1 /\
    initCanvas sample_PI sample_cos sample_sin canvas_2d used_host =
      Return s2 /\
    ctx_calls
      (host (run_events sample_PI sample_cos sample_sin
               [call_writeText (str "hola"); call_nextImage; call_resize]
               s1)) =
      ctx_calls sample_host ++ cmds /\
    ctx_calls
      (host (run_events sample_PI sample_cos sample_sin
               [call_writeText (str "hola"); call_nextImage; call_resize]
               s2)) =
      ctx_calls used_host ++ cmds.
Proof.
  assert (He : same_environment sample_host used_host)
    by (repeat split).
  split; [exact He|].
  exact (deterministic sample_PI sample_cos sample_sin sample_host used_host
           [call_writeText (str "hola"); call_nextImage; call_resize] He).
Defined.

(** ** The scenarios of the specification, run on the sample host *)

(** Scenario A: construction on a 400 by 300 layout at scale 2. *)
Example scenario_A :
  match initCanvas sample_PI sample_cos sample_sin canvas_2d sample_host with
  | Return s =>
      canvas_width (host s) = 800 /\ canvas_height (host s) = 600 /\
      dpr s = 2 /\ currentImage s = 0%Z /\ hintText s = "" /\
      ctx_calls (host s) =
        [set_lineCap "round"; set_lineJoin "round";
         setTransform 2 0 0 2 0 0; clearRect 0 0 (800 / 2) (600 / 2)]
        ++ background_with sample_PI sample_cos sample_sin apple s /\
      Canvas2D.texts
        (Canvas2D.run sample_cos sample_sin (ctx_calls (host s))
           fresh_context) = []
  | Throw _ _ => False
  end.
Proof. vm_compute. repeat split. Qed.

(** Scenario B: [writeText('hola')] after the construction. *)
Example scenario_B :
  match initCanvas sample_PI sample_cos sample_sin canvas_2d sample_host with
  | Return s =>
      let s' := exec (writeText sample_PI sample_cos sample_sin (str "hola"))
                  s in
      hintText s' = "hola" /\
      match Canvas2D.texts
              (Canvas2D.run sample_cos sample_sin
                 (emitted (writeText sample_PI sample_cos sample_sin
                             (str "hola")) s)
                 sample_context) with
      | [(t, tx, ty, size)] =>
          t = "hola" /\ tx == 280 /\ ty == 165 /\ size == 50
      | _ => False
      end
  | Throw _ _ => False
  end.
Proof. vm_compute. repeat split. Qed.

(** Scenario C: [nextImage] from the apple with a text set. *)
Example scenario_C :
  let s' := exec (nextImage sample_PI sample_cos sample_sin) sample_state in
  hintText sample_state = "hola" /\
  currentImage s' = 1%Z /\ hintText s' = "" /\
  ctx_calls (host s') =
    [clearRect 0 0 (800 / 2) (600 / 2)]
    ++ background_with sample_PI sample_cos sample_sin banana s'.
Proof. vm_compute. repeat split. Qed.

(** Scenario D: three calls of [nextImage]. *)
Example scenario_D :
  map (fun n =>
         currentImage
           (nextImage_times sample_PI sample_cos sample_sin n sample_state))
      [0; 1; 2; 3]%nat
  = [0; 1; 2; 0]%Z.
Proof. vm_compute. reflexivity. Qed.

(** Scenario E: construction without a surface. *)
Example scenario_E :
  initCanvas sample_PI sample_cos sample_sin no_element sample_host =
  Throw (Error "Canvas element not found") sample_host.
Proof. reflexivity. Qed.

(** ** Properties of the page scripts *)

(** *** Numbers and the time display *)

Lemma Qfloor_unique (x : Q) (z : Z) :
  inject_Z z <= x -> x < inject_Z (z + 1) -> Qfloor x = z.
Proof.
  intros Hle Hlt.
  assert (H1 : (z <= Qfloor x)%Z).
  { rewrite <- (Qfloor_Z z). apply Qfloor_resp_le, Hle. }
  assert (H2 : (Qfloor x < z + 1)%Z).
  { rewrite Zlt_Qlt. eapply Qle_lt_trans; [apply Qfloor_le | exact Hlt]. }
  lia.
Qed.

Lemma Qfloor_nonneg (x : Q) : 0 <= x -> (0 <= Qfloor x)%Z.
Proof.
  intros H. change 0%Z with (Qfloor 0). apply Qfloor_resp_le, H.
Qed.

Lemma Qfloor_div_60 (t : Q) :
  Qfloor (t / 60) = (Qfloor t / 60)%Z.
Proof.
  destruct t as [n d]. unfold Qdiv, Qmult, Qinv, Qfloor. cbn.
  rewrite Z.mul_1_r, Pos2Z.inj_mul. rewrite Z.div_div by lia. reflexivity.
Qed.

Lemma Qfloor_sub_Z (x : Q) (k : Z) :
  Qfloor (x - inject_Z k) = (Qfloor x - k)%Z.
Proof.
  apply Qfloor_unique.
  - unfold Z.sub. rewrite inject_Z_plus, inject_Z_opp.
    apply Qplus_le_compat; [apply Qfloor_le | apply Qle_refl].
  - replace (Qfloor x - k + 1)%Z with ((Qfloor x + 1) + - k)%Z by lia.
    rewrite inject_Z_plus, inject_Z_opp.
    apply Qplus_lt_le_compat; [apply Qlt_floor | apply Qle_refl].
Qed.

Lemma trunc_nonneg (x : Q) : 0 <= x -> Num.trunc x = Qfloor x.
Proof.
  intros H. unfold Num.trunc.
  destruct (Qle_bool 0 x) eqn:E; [reflexivity|].
  apply Qle_bool_iff in H. congruence.
Qed.

Lemma Qfloor_rem_60 (t : Q) :
  0 <= t -> Qfloor (Num.rem t 60) = (Qfloor t mod 60)%Z.
Proof.
  intros H. unfold Num.rem.
  assert (H60 : 0 <= t / 60).
  { apply Qle_shift_div_l; [reflexivity|]. rewrite Qmult_0_l. exact H. }
  rewrite (trunc_nonneg _ H60), Qfloor_div_60.
  rewrite (Qfloor_comp _ (t - inject_Z (60 * (Qfloor t / 60)))).
  - rewrite Qfloor_sub_Z, Z.mod_eq by lia. reflexivity.
  - rewrite inject_Z_mult. reflexivity.
Qed.

Lemma lt_inject_Z (a b : Z) :
  Num.lt (inject_Z a) (inject_Z b) = (a <? b)%Z.
Proof.
  unfold Num.lt. destruct (Z.ltb_spec a b) as [H|H].
  - destruct (Qle_bool (inject_Z b) (inject_Z a)) eqn:E; [|reflexivity].
    apply Qle_bool_iff in E. rewrite <- Zle_Qle in E. lia.
  - rewrite Zle_Qle in H. apply Qle_bool_iff in H. rewrite H. reflexivity.
Qed.

Lemma toString_inject_Z (z : Z) :
  Num.toString (inject_Z z) = Num.Z_toString z.
Proof. unfold Num.toString. rewrite Qfloor_Z. reflexivity. Qed.


Lemma below_60 (s : Z) :
  (0 <= s < 60)%Z -> In s (map Z.of_nat (seq 0 60)).
Proof.
  intros H. apply in_map_iff. exists (Z.to_nat s). split; [lia|].
  apply in_seq. lia.
Qed.

Lemma seconds_field_length (s : Z) :
  (0 <= s < 60)%Z -> String.length (seconds_field s) = 2%nat.
Proof.
  intros H. apply below_60 in H. revert s H. apply Forall_forall.
  repeat constructor.
Qed.


Lemma formatTime_fields (t : Q) :
  0 <= t ->
  Video.formatTime t =
  Str.cat (Str.cat (Num.Z_toString (Qfloor t / 60)) ":")
    (seconds_field (Qfloor t mod 60)).
Proof.
  intros H. unfold Video.formatTime, Math_floor, seconds_field.
  rewrite !toString_inject_Z, Qfloor_div_60, (Qfloor_rem_60 t H).
  change 10 with (inject_Z 10). rewrite lt_inject_Z.
  rewrite !cat_assoc. reflexivity.
Qed.

(** The whole minutes of a time.

    The quotient of a double below 2^53 by 60 is rounded to binary64
    without reaching the next whole number k: next to 60 k the doubles lie
    at least 32 times as far apart as next to k, so that the quotient of a
    double below 60 k is more than half a step below k. *)
Lemma floor_quotient_60 (t : Q) :
  binary64 t == t -> 0 <= t -> t < 9007199254740992 ->
  Qfloor (binary64 (t / 60)) = Qfloor (t / 60).
Proof.
  intros Hd H0 Hb.
  set (q := t / 60). set (N := Qfloor q).
  assert (Hq : t == 60 * q) by (unfold q; field).
  assert (Hq0 : 0 <= q) by lra.
  pose proof (Qfloor_le q) as F1. pose proof (Qlt_floor q) as F2.
  fold N in F1, F2.
  rewrite inject_Z_plus in F2. change (inject_Z 1) with 1 in F2.
  assert (HN0 : (0 <= N)%Z).
  { unfold N. change 0%Z with (Qfloor 0). apply Qfloor_resp_le, Hq0. }
  assert (HN1 : (N <= 2 ^ 53)%Z).
  { rewrite Zle_Qle. change (inject_Z (2 ^ 53)) with 9007199254740992. lra. }
  assert (Low : inject_Z N <= binary64 q).
  { destruct (Z.eq_dec N 0) as [->|Hn].
    - apply binary64_nonneg, Hq0.
    - rewrite <- (binary64_Z N) by lia.
      apply binary64_mono; [|exact F1].
      change 0 with (inject_Z 0). rewrite <- Zlt_Qlt. lia. }
  assert (Up : binary64 q < inject_Z (N + 1)).
  { rewrite inject_Z_plus. change (inject_Z 1) with 1.
    destruct (Qlt_le_dec 30 t) as [Big|Small].
    - (* the exponents of t and of q *)
      assert (Ht : 0 < t) by lra.
      assert (Hqp : 0 < q) by lra.
      destruct (ilog2_spec t Ht) as [A1 A2].
      destruct (ilog2_spec q Hqp) as [B1 B2].
      set (a := ilog2 t) in *. set (b := ilog2 q) in *.
      assert (Ha4 : (4 <= a)%Z).
      { change 4%Z with (ilog2 16). apply ilog2_le; [reflexivity | lra]. }
      assert (Ha52 : (a < 53)%Z).
      { apply pow2_lt_inv. eapply Qle_lt_trans; [exact A1|].
        change (2 ^ 53) with 9007199254740992. exact Hb. }
      assert (Hb1 : (-1 <= b)%Z).
      { change (-1)%Z with (ilog2 (1 # 2)).
        apply ilog2_le; [reflexivity | lra]. }
      assert (Hba : (b + 5 <= a)%Z).
      { assert (b < a - 4)%Z; [|lia].
        apply pow2_lt_inv. eapply Qle_lt_trans; [exact B1|].
        assert (E : 2 ^ (a + 1) == 2 ^ (a - 4) * 32).
        { replace (a + 1)%Z with ((a - 4) + 5)%Z by lia.
          rewrite pow2_plus. reflexivity. }
        pose proof (pow2_pos (a - 4)). lra. }
      set (v := 2 ^ (a - 52)). set (u := 2 ^ (b - 52)).
      assert (Hv : 0 < v) by apply pow2_pos.
      assert (Hu : 0 < u) by apply pow2_pos.
      assert (Hvu : 32 * u <= v).
      { assert (E : 32 * u == 2 ^ (b + 5 - 52)).
        { unfold u. replace (b + 5 - 52)%Z with (5 + (b - 52))%Z by lia.
          rewrite pow2_plus. reflexivity. }
        rewrite E. apply pow2_le. lia. }
      (* t is a multiple of v *)
      pose proof Hd as Td. rewrite (binary64_pos t Ht) in Td.
      fold a in Td. rewrite Z.max_l in Td by lia. fold v in Td.
      set (T := round_half_even (t / v)) in Td.
      (* 60 (N + 1) is a multiple of v, and N + 1 one of u *)
      set (W := (60 * (N + 1) * 2 ^ (52 - a))%Z).
      assert (HM : inject_Z W * v == 60 * (inject_Z N + 1)).
      { unfold W, v. rewrite !inject_Z_mult, inject_Z_plus.
        rewrite pow2_Z by lia. rewrite <- Qmult_assoc, <- pow2_plus.
        replace (52 - a + (a - 52))%Z with 0%Z by lia.
        change (inject_Z 60) with 60. change (inject_Z 1) with 1.
        change (2 ^ 0) with 1. ring. }
      set (K := ((N + 1) * 2 ^ (52 - b))%Z).
      assert (HK : inject_Z K * u == inject_Z N + 1).
      { unfold K, u. rewrite inject_Z_mult, inject_Z_plus.
        rewrite pow2_Z by lia. rewrite <- Qmult_assoc, <- pow2_plus.
        replace (52 - b + (b - 52))%Z with 0%Z by lia.
        change (inject_Z 1) with 1. change (2 ^ 0) with 1. ring. }
      assert (HT : (T < W)%Z).
      { rewrite Zlt_Qlt. apply (Qmult_lt_r _ _ v Hv). rewrite Td, HM. lra. }
      assert (Htv : t <= 60 * (inject_Z N + 1) - v).
      { rewrite <- HM, <- Td.
        setoid_replace (inject_Z W * v - v) with (inject_Z (W - 1) * v)
          by (unfold Z.sub; rewrite inject_Z_plus, inject_Z_opp;
              change (inject_Z 1) with 1; ring).
        apply Qmult_le_compat_r; [|lra]. rewrite <- Zle_Qle. lia. }
      rewrite (binary64_pos q Hqp). fold b. rewrite Z.max_l by lia. fold u.
      assert (R : (round_half_even (q / u) < K)%Z).
      { apply round_half_even_below.
        apply Qlt_shift_div_r; [exact Hu|].
        setoid_replace ((inject_Z K - (1 # 2)) * u)
          with (inject_Z K * u - (1 # 2) * u) by ring.
        rewrite HK. lra. }
      rewrite <- HK.
      apply Qmult_lt_compat_r; [exact Hu|]. rewrite <- Zlt_Qlt. exact R.
    - destruct (Qlt_le_dec 0 q) as [Hqp|Hqz].
      + apply Qle_lt_trans with (binary64 (1 # 2)).
        * apply binary64_mono; [exact Hqp | lra].
        * apply Qlt_le_trans with 1; [vm_compute; reflexivity|].
          change 0%Z with 0%Z in HN0.
          assert (0 <= inject_Z N)
            by (change 0 with (inject_Z 0); rewrite <- Zle_Qle; exact HN0).
          lra.
      + assert (E : q == 0) by (apply Qle_antisym; assumption).
        unfold binary64. apply Qeq_bool_iff in E. rewrite E.
        assert (0 <= inject_Z N)
          by (change 0 with (inject_Z 0); rewrite <- Zle_Qle; exact HN0).
        lra. }
  fold q. fold N.
  assert (G : (N <= Qfloor (binary64 q))%Z).
  { rewrite <- (Qfloor_Z N). apply Qfloor_resp_le, Low. }
  assert (G' : (Qfloor (binary64 q) < N + 1)%Z).
  { rewrite Zlt_Qlt. eapply Qle_lt_trans; [apply Qfloor_le | exact Up]. }
  lia.
Qed.

(** X5.  For a time that is not negative and below 2^53 seconds, the range
    in which a double holds every whole number, [formatTime] prints the
    whole minutes of the whole seconds, a colon, and the remaining seconds
    on exactly two characters, a 0 in front when they are below 10: the
    fraction of a second is dropped, the seconds are between 0 and 59, and
    60 times the minutes plus the seconds is the floor of the time.  The
    minutes are not padded and not capped at 59.  On a double in that
    range, the whole minutes that JavaScript takes from the quotient
    rounded to binary64 are these minutes. *)
Theorem formatTime_whole_seconds (t : Q) :
  0 <= t -> t < 9007199254740992 ->
  let n := Qfloor t in
  Video.formatTime t =
    Str.cat (Str.cat (Num.Z_toString (n / 60)) ":")
      (seconds_field (n mod 60)) /\
  String.length (seconds_field (n mod 60)) = 2%nat /\
  (0 <= n / 60)%Z /\ (0 <= n mod 60 < 60)%Z /\
  (60 * (n / 60) + n mod 60 = n)%Z /\
  (binary64 t == t -> Math_floor (divide t 60) = inject_Z (n / 60)).
Proof.
  intros H B n. pose proof (Qfloor_nonneg t H) as Hn. fold n in Hn.
  assert (Hm : (0 <= n mod 60 < 60)%Z) by (apply Z.mod_pos_bound; lia).
  split; [apply formatTime_fields, H|].
  split; [apply seconds_field_length, Hm|].
  split; [apply Z.div_pos; lia|]. split; [exact Hm|].
  split; [symmetry; apply Z.div_mod; lia|].
  intros D. unfold Math_floor, divide. f_equal.
  rewrite (floor_quotient_60 t D H B). apply Qfloor_div_60.
Qed.


(** *** The video quiz *)

Lemma item_at_Some (i : Z) (it : Video.item) :
  Video.item_at i = Some it ->
  (i = 0 \/ i = 1 \/ i = 2)%Z /\
  Str.toLowerCase (Video.answer it) = Video.answer it.
Proof.
  unfold Video.item_at. destruct (Z.ltb_spec i 0) as [Hneg|Hpos];
    [discriminate|].
  destruct (Z.to_nat i) as [|[|[|k]]] eqn:E; cbn; intros Hit;
    try (injection Hit as <-; split; [lia | reflexivity]).
  destruct k; discriminate.
Qed.

Lemma check_click_frame (q q' : Video.Quiz) :
  Video.check_click q = ok q' ->
  Video.currentVideoIndex q' = Video.currentVideoIndex q /\
  Video.video_src q' = Video.video_src q /\
  Video.video_loads q' = Video.video_loads q /\
  Video.playBtn_textContent q' = Video.playBtn_textContent q /\
  Video.answerInput_value q' = Video.answerInput_value q.
Proof.
  destruct q as [i v n b a t c]. unfold Video.check_click.
  destruct (Video.item_at i); [|discriminate].
  match goal with |- context [if ?b then _ else _] => destruct b end;
    intros H; injection H as <-; repeat split.
Qed.

Lemma next_click_ok (q : Video.Quiz) :
  (Video.currentVideoIndex q = 0 \/ Video.currentVideoIndex q = 1 \/
   Video.currentVideoIndex q = 2)%Z ->
  exists it,
    Video.item_at ((Video.currentVideoIndex q + 1) mod 3) = Some it /\
    Video.next_click q =
    ok (Video.mkQuiz ((Video.currentVideoIndex q + 1) mod 3) (Video.video it)
          (S (Video.video_loads q)) "Play" "" "" "result").
Proof.
  destruct q as [i v n b a t c].
  cbn [Video.currentVideoIndex Video.video_loads].
  intros [->|[->| ->]]; eexists; split; reflexivity.
Qed.

Lemma reachable_quiz_ok (q : Video.Quiz) :
  Video.reachable q -> quiz_ok q.
Proof.
  induction 1 as [q q' H0 Hl|text q _ IH|label q _ IH|q q' _ IH Hc
                 |q q' Hr IH Hn].
  - destruct q as [i v n b a t c]. cbn in H0. subst i.
    cbn in Hl. injection Hl as <-. eexists. split; reflexivity.
  - destruct q. exact IH.
  - destruct q. exact IH.
  - destruct (check_click_frame q q' Hc) as (Ei & Ev & _).
    destruct IH as (it & Hit & Hv). exists it. rewrite Ei, Ev.
    split; assumption.
  - destruct IH as (it & Hit & _).
    destruct (item_at_Some _ _ Hit) as [Hi _].
    destruct (next_click_ok q Hi) as (it' & Hit' & E).
    rewrite E in Hn. injection Hn as <-. exists it'.
    split; [exact Hit'|reflexivity].
Qed.

(** X7.  Once [initVideo] has run, whatever is typed and clicked after it,
    the index points into the list and the player holds the video of that
    index; so neither the check nor the next handler can throw, and a
    check marks the answer correct exactly when the typed text, trimmed
    and in lower case, is the answer of the video in the player, and
    incorrect otherwise. *)
Theorem quiz_checks_loaded_video (q : Video.Quiz) :
  Video.reachable q ->
  exists it q1 q2,
    Video.item_at (Video.currentVideoIndex q) = Some it /\
    Video.video_src q = Video.video it /\
    Video.check_click q = ok q1 /\
    Video.next_click q = ok q2 /\
    (Video.resultDiv_className q1 = "result correct" <->
     Str.toLowerCase (Str.trim (Video.answerInput_value q)) =
     Video.answer it) /\
    (Video.resultDiv_className q1 = "result correct" \/
     Video.resultDiv_className q1 = "result incorrect").
Proof.
  intros Hr. destruct (reachable_quiz_ok q Hr) as (it & Hit & Hv).
  destruct (item_at_Some _ _ Hit) as [Hi Hlow].
  destruct (next_click_ok q Hi) as (it' & _ & En).
  exists it. destruct q as [i v n b a t c].
  cbn [Video.currentVideoIndex Video.video_src Video.answerInput_value] in *.
  unfold Video.check_click. rewrite Hit, Hlow.
  destruct (String.eqb_spec (Str.toLowerCase (Str.trim a)) (Video.answer it))
    as [E|E]; eexists; eexists;
    (split; [reflexivity|]); (split; [exact Hv|]);
    (split; [reflexivity|]); (split; [exact En|]); cbn; split.
  - tauto.
  - left. reflexivity.
  - split; [discriminate | contradiction].
  - right. reflexivity.
Qed.

Lemma verdict_for_normal (u v : string) (q : Video.Quiz) :
  Str.toLowerCase (Str.trim u) = Str.toLowerCase (Str.trim v) ->
  Video.verdict_for u q = Video.verdict_for v q.
Proof.
  intros E. destruct q as [i s n b a t c].
  unfold Video.verdict_for, Video.type_answer, Video.check_click.
  rewrite E. destruct (Video.item_at i); [|reflexivity].
  match goal with |- context [if ?b then _ else _] => destruct b end;
    reflexivity.
Qed.

(** X8.  The verdict of a check does not depend on white space around the
    typed answer, nor on its case. *)
Theorem check_ignores_case_and_padding (u pre post : string)
    (q : Video.Quiz) :
  Str.all_whitespace pre = true ->
  Str.all_whitespace post = true ->
  Video.verdict_for (Str.cat pre (Str.cat u post)) q = Video.verdict_for u q /\
  Video.verdict_for (Str.toLowerCase u) q = Video.verdict_for u q.
Proof.
  intros Hpre Hpost. split; apply verdict_for_normal.
  - rewrite (trim_pad pre u post Hpre Hpost). reflexivity.
  - rewrite toLowerCase_trim, toLowerCase_idem. reflexivity.
Qed.

(** X9.  A check only reports: it leaves the index, the video in the
    player, the label of the play button and the typed answer as they are,
    and a second check right after it changes nothing. *)
Theorem check_click_only_reports (q q1 : Video.Quiz) :
  Video.check_click q = ok q1 ->
  Video.currentVideoIndex q1 = Video.currentVideoIndex q /\
  Video.video_src q1 = Video.video_src q /\
  Video.video_loads q1 = Video.video_loads q /\
  Video.playBtn_textContent q1 = Video.playBtn_textContent q /\
  Video.answerInput_value q1 = Video.answerInput_value q /\
  Video.check_click q1 = ok q1.
Proof.
  intros H. destruct (check_click_frame q q1 H) as (E1 & E2 & E3 & E4 & E5).
  repeat (split; [assumption|]).
  destruct q as [i v n b a t c]. unfold Video.check_click in *.
  destruct (Video.item_at i) as [it|] eqn:Hit; [|discriminate].
  destruct (String.eqb (Str.toLowerCase (Str.trim a))
              (Str.toLowerCase (Video.answer it))) eqn:E;
    injection H as <-; rewrite Hit, E; reflexivity.
Qed.

Lemma next_times_index (n : nat) (q : Video.Quiz) :
  (Video.currentVideoIndex q = 0 \/ Video.currentVideoIndex q = 1 \/
   Video.currentVideoIndex q = 2)%Z ->
  (0 < n)%nat ->
  exists it,
    Video.item_at ((Video.currentVideoIndex q + Z.of_nat n) mod 3) = Some it /\
    Video.next_times n q =
    ok (Video.mkQuiz ((Video.currentVideoIndex q + Z.of_nat n) mod 3)
          (Video.video it) (n + Video.video_loads q) "Play" "" "" "result").
Proof.
  revert q. induction n as [|n IH]; intros q Hi Hn; [lia|].
  destruct (next_click_ok q Hi) as (it & Hit & E).
  cbn [Video.next_times]. rewrite E.
  destruct n as [|n].
  - exists it. cbn [Video.next_times]. split; [exact Hit|]. reflexivity.
  - destruct (IH (Video.mkQuiz ((Video.currentVideoIndex q + 1) mod 3)
                    (Video.video it) (S (Video.video_loads q)) "Play" "" ""
                    "result")) as (it' & Hit' & E'); [|lia|].
    { cbn [Video.currentVideoIndex].
      pose proof (Z.mod_pos_bound (Video.currentVideoIndex q + 1) 3 eq_refl).
      lia. }
    cbn [Video.currentVideoIndex Video.video_loads] in Hit', E'.
    rewrite Z.add_mod_idemp_l in Hit', E' by discriminate.
    replace (Video.currentVideoIndex q + 1 + Z.of_nat (S n))%Z
      with (Video.currentVideoIndex q + Z.of_nat (S (S n)))%Z in Hit', E'
      by lia.
    exists it'. split; [exact Hit'|]. rewrite E'. f_equal. f_equal. lia.
Qed.

(** X10.  The next button walks through the three videos in a cycle.  From
    a quiz that [initVideo] has started, any number of clicks succeeds,
    each loading one video, and leaves the answer and the result empty and
    the play button labelled Play; three more clicks come back to the same
    index and the same video; one and two clicks show two other videos,
    different from each other. *)
Theorem next_video_cycles (q : Video.Quiz) :
  Video.reachable q ->
  (forall n, exists qn,
     Video.next_times n q = ok qn /\
     Video.video_loads qn = (n + Video.video_loads q)%nat /\
     ((0 < n)%nat ->
      Video.answerInput_value qn = "" /\
      Video.resultDiv_textContent qn = "" /\
      Video.resultDiv_className qn = "result" /\
      Video.playBtn_textContent qn = "Play")) /\
  (forall n q1 q2,
     Video.next_times n q = ok q1 ->
     Video.next_times (n + 3) q = ok q2 ->
     Video.currentVideoIndex q2 = Video.currentVideoIndex q1 /\
     Video.video_src q2 = Video.video_src q1) /\
  (exists q1 q2,
     Video.next_times 1 q = ok q1 /\ Video.next_times 2 q = ok q2 /\
     Video.video_src q1 <> Video.video_src q /\
     Video.video_src q2 <> Video.video_src q /\
     Video.video_src q1 <> Video.video_src q2).
Proof.
  intros Hr. destruct (reachable_quiz_ok q Hr) as (it & Hit & Hv).
  destruct (item_at_Some _ _ Hit) as [Hi _].
  split; [|split].
  - intros [|n].
    + exists q. split; [reflexivity|]. split; [reflexivity|]. lia.
    + destruct (next_times_index (S n) q Hi) as (itn & _ & E); [lia|].
      eexists. split; [exact E|]. cbn [Video.video_loads
        Video.answerInput_value Video.resultDiv_textContent
        Video.resultDiv_className Video.playBtn_textContent].
      repeat split.
  - intros n q1 q2 E1 E2.
    destruct (next_times_index (n + 3) q Hi) as (it2 & Hit2 & F2); [lia|].
    rewrite F2 in E2. injection E2 as <-.
    cbn [Video.currentVideoIndex Video.video_src].
    assert (Hsame : ((Video.currentVideoIndex q + Z.of_nat (n + 3)) mod 3
                     = (Video.currentVideoIndex q + Z.of_nat n) mod 3)%Z).
    { rewrite Nat2Z.inj_add. change (Z.of_nat 3) with (1 * 3)%Z.
      rewrite Z.add_assoc, Z.mod_add by discriminate. reflexivity. }
    rewrite Hsame in Hit2 |- *.
    destruct n as [|n].
    + cbn [Video.next_times] in E1. injection E1 as <-.
      assert (H0 : ((Video.currentVideoIndex q + Z.of_nat 0) mod 3
                    = Video.currentVideoIndex q)%Z)
        by (destruct Hi as [->|[->| ->]]; reflexivity).
      rewrite H0 in Hit2 |- *. rewrite Hit in Hit2. injection Hit2 as <-.
      split; [reflexivity | symmetry; exact Hv].
    + destruct (next_times_index (S n) q Hi) as (it1 & Hit1 & F1); [lia|].
      rewrite F1 in E1. injection E1 as <-.
      cbn [Video.currentVideoIndex Video.video_src].
      rewrite Hit1 in Hit2. injection Hit2 as <-. split; reflexivity.
  - destruct q as [i v n b a t c].
    cbn [Video.currentVideoIndex Video.video_src] in *. subst v.
    destruct Hi as [->|[->| ->]]; cbn in Hit; injection Hit as <-;
      eexists; eexists; (split; [reflexivity|]); (split; [reflexivity|]);
      cbn; repeat split; discriminate.
Qed.

(** *** Pronunciation practice *)

Lemma step_keeps_word (ev : Speech.event) (p : Speech.Panel) :
  ev <> Speech.click_next_word ->
  Speech.currentWordIndex (Speech.step ev p) = Speech.currentWordIndex p /\
  Speech.wordDisplay_textContent (Speech.step ev p) =
  Speech.wordDisplay_textContent p.
Proof.
  intros Hne. destruct p as [i w st sc rt rc r n u].
  destruct ev; try contradiction; cbn; destruct r; cbn;
    repeat match goal with
           | |- context [if ?b then _ else _] => destruct b
           end; cbn; split; reflexivity.
Qed.

Lemma next_word_shows (p : Speech.Panel) :
  word_index_ok p ->
  word_index_ok (Speech.next_word_click p) /\
  shows_word (Speech.next_word_click p) /\
  Speech.currentWordIndex (Speech.next_word_click p) =
  ((Speech.currentWordIndex p + 1) mod 8)%Z.
Proof.
  destruct p as [i w st sc rt rc r n u].
  unfold word_index_ok, shows_word. cbn [Speech.currentWordIndex].
  intros H.
  assert (Hi : (i = 0 \/ i = 1 \/ i = 2 \/ i = 3 \/ i = 4 \/ i = 5 \/ i = 6
                \/ i = 7)%Z) by lia.
  repeat (destruct Hi as [->|Hi]); try subst i; cbn;
    (split; [lia|split; reflexivity]).
Qed.

Lemma run_word_index (evs : list Speech.event) (p : Speech.Panel) :
  word_index_ok p ->
  word_index_ok (Speech.run evs p) /\
  (shows_word p \/ In Speech.click_next_word evs ->
   shows_word (Speech.run evs p)).
Proof.
  revert p. induction evs as [|ev evs IH]; intros p Hp.
  - cbn. split; [exact Hp|]. intros [H|[]]. exact H.
  - change (Speech.run (ev :: evs) p)
      with (Speech.run evs (Speech.step ev p)).
    assert (Hev : {ev = Speech.click_next_word}
                  + {ev <> Speech.click_next_word})
      by (destruct ev; (left; reflexivity) || (right; discriminate)).
    destruct Hev as [->|Hne].
    + destruct (next_word_shows p Hp) as (Hok & Hs & _).
      destruct (IH _ Hok) as [H1 H2]. split; [exact H1|].
      intros _. apply H2. left. exact Hs.
    + destruct (step_keeps_word ev p Hne) as [Ei Ew].
      assert (Hok : word_index_ok (Speech.step ev p))
        by (unfold word_index_ok; rewrite Ei; exact Hp).
      destruct (IH _ Hok) as [H1 H2]. split; [exact H1|].
      intros [Hs|[E|Hin]].
      * apply H2. left. unfold shows_word. rewrite Ei, Ew. exact Hs.
      * congruence.
      * apply H2. right. exact Hin.
Qed.

(** X11.  Whatever is clicked and whatever the recognition reports, the
    word index stays within the list of the eight words; once the next
    button has been clicked, the word on display is the word of the
    index; a click on the next button moves the index to the following
    word, the first after the last, and eight clicks lead back to the same
    word. *)
Theorem word_index_in_list (evs : list Speech.event) (p : Speech.Panel) :
  (0 <= Speech.currentWordIndex p < 8)%Z ->
  let p' := Speech.run evs p in
  (0 <= Speech.currentWordIndex p' < 8)%Z /\
  (In Speech.click_next_word evs ->
   Speech.word_at (Speech.currentWordIndex p') =
   Some (Speech.wordDisplay_textContent p')) /\
  Speech.currentWordIndex
    (Speech.run (repeat Speech.click_next_word 8) p') =
  Speech.currentWordIndex p' /\
  Speech.currentWordIndex (Speech.next_word_click p') =
  ((Speech.currentWordIndex p' + 1) mod 8)%Z.
Proof.
  intros Hp p'. destruct (run_word_index evs p Hp) as [Hok Hs].
  fold p' in Hok, Hs.
  split; [exact Hok|]. split; [intros Hin; apply Hs; right; exact Hin|].
  split; [|apply next_word_shows, Hok].
  destruct p' as [i w st sc rt rc r n u].
  unfold word_index_ok in Hok. cbn [Speech.currentWordIndex] in *.
  assert (Hi : (i = 0 \/ i = 1 \/ i = 2 \/ i = 3 \/ i = 4 \/ i = 5 \/ i = 6
                \/ i = 7)%Z) by lia.
  repeat (destruct Hi as [->|Hi]); try subst i; reflexivity.
Qed.

(** X12.  What a round of recognition leaves on the panel.  When the
    recognition ends without a result, the status says that nothing was
    heard, and the result is left as it was.  When it ends after a result,
    the status is empty and the result is the verdict of [onresult],
    correct exactly when the transcript and the word on display are equal
    up to case.  When it ends after an error, the error message stays and
    the result is left as it was. *)
Theorem recognition_outcome (p : Speech.Panel) (r : Speech.Recognition)
    (t : string) :
  Speech.recognition p = Some r ->
  let silent :=
    Speech.run [Speech.recognition_start; Speech.recognition_end] p in
  let heard :=
    Speech.run [Speech.recognition_start; Speech.recognition_result t;
                Speech.recognition_end] p in
  let failed :=
    Speech.run [Speech.recognition_start; Speech.recognition_error;
                Speech.recognition_end] p in
  Speech.status_textContent silent = "Did not hear anything. Try again." /\
  Speech.status_className silent = "status" /\
  Speech.result_textContent silent = Speech.result_textContent p /\
  Speech.result_className silent = Speech.result_className p /\
  heard = Speech.onresult t p /\
  Speech.status_textContent heard = "" /\
  Speech.status_className heard = "status" /\
  (Speech.result_className heard = "result correct" <->
   Str.toLowerCase t =
   Str.toLowerCase (Speech.wordDisplay_textContent p)) /\
  (Speech.result_className heard = "result correct" \/
   Speech.result_className heard = "result incorrect") /\
  Speech.status_textContent failed = "Error. Please try again." /\
  Speech.status_className failed = "status" /\
  Speech.result_textContent failed = Speech.result_textContent p /\
  Speech.result_className failed = Speech.result_className p.
Proof.
  destruct p as [i w st sc rt rc r0 n u]. cbn [Speech.recognition].
  intros ->. cbv zeta. cbn [Speech.run fold_left Speech.step
    Speech.recognition Speech.onstart].
  repeat (split; [reflexivity|]).
  unfold Speech.onresult.
  destruct (String.eqb_spec (Str.toLowerCase t) (Str.toLowerCase w)) as [E|E];
    cbn; repeat split; try reflexivity; try tauto; try discriminate;
    try contradiction; try (left; reflexivity); try (right; reflexivity).
Qed.

Lemma step_unsupported (ev : Speech.event) (p : Speech.Panel) :
  Speech.recognition p = None ->
  Speech.recognition (Speech.step ev p) = None /\
  Speech.starts (Speech.step ev p) = Speech.starts p /\
  Speech.status_className (Speech.step ev p) <> "status listening" \/
  Speech.recognition (Speech.step ev p) = None /\
  Speech.starts (Speech.step ev p) = Speech.starts p /\
  Speech.status_className (Speech.step ev p) = Speech.status_className p.
Proof.
  destruct p as [i w st sc rt rc r n u]. cbn [Speech.recognition].
  intros ->. destruct ev; cbn;
    first [ right; repeat split; reflexivity
          | left; repeat split; discriminate ].
Qed.

Lemma run_unsupported (evs : list Speech.event) (p : Speech.Panel) :
  Speech.recognition p = None ->
  Speech.recognition (Speech.run evs p) = None /\
  Speech.starts (Speech.run evs p) = Speech.starts p /\
  (Speech.status_className p <> "status listening" ->
   Speech.status_className (Speech.run evs p) <> "status listening").
Proof.
  revert p. induction evs as [|ev evs IH]; intros p Hr.
  - cbn. repeat split; auto.
  - change (Speech.run (ev :: evs) p)
      with (Speech.run evs (Speech.step ev p)).
    destruct (step_unsupported ev p Hr)
      as [(H1 & H2 & H3)|(H1 & H2 & H3)];
      destruct (IH _ H1) as (I1 & I2 & I3); rewrite I2, H2;
      repeat split; auto.
    intros Hs. apply I3. rewrite H3. exact Hs.
Qed.

(** X13.  In a browser without speech recognition there is never a
    recognition object, [recognition.start()] is never called and the
    status never shows that the page is listening; a click on the speak
    button says that recognition is not supported and leaves the result
    as it is. *)
Theorem speech_unsupported (evs : list Speech.event) (p : Speech.Panel) :
  Speech.recognition p = None ->
  let p' := Speech.run evs p in
  Speech.recognition p' = None /\
  Speech.starts p' = Speech.starts p /\
  (Speech.status_className p <> "status listening" ->
   Speech.status_className p' <> "status listening") /\
  Speech.status_textContent (Speech.speak_click p') =
    "Speech recognition not supported in this browser." /\
  Speech.result_textContent (Speech.speak_click p') =
    Speech.result_textContent p' /\
  Speech.result_className (Speech.speak_click p') =
    Speech.result_className p'.
Proof.
  intros Hr. cbv zeta.
  destruct (run_unsupported evs p Hr) as (H1 & H2 & H3).
  split; [exact H1|]. split; [exact H2|]. split; [exact H3|].
  destruct (Speech.run evs p) as [i w st sc rt rc r n u].
  cbn [Speech.recognition] in H1. subst r. cbn. repeat split.
Qed.
(** ** The properties of the page scripts on the sample page *)

Lemma formatTime_whole_seconds_witness :
  0 <= 125.5 /\ 125.5 < 9007199254740992 /\
  Video.formatTime 125.5 = "2:05" /\
  binary64 125.5 == 125.5 /\
  Math_floor (divide 125.5 60) = 2.
Proof.
  assert (H : 0 <= 125.5) by discriminate.
  assert (B : 125.5 < 9007199254740992) by reflexivity.
  assert (D : binary64 125.5 == 125.5) by (vm_compute; reflexivity).
  split; [exact H|]. split; [exact B|].
  pose proof (formatTime_whole_seconds 125.5 H B) as R.
  cbv zeta in R. destruct R as (R1 & _ & _ & _ & _ & R2).
  split; [exact (eq_trans R1 eq_refl)|].
  split; [exact D|].
  exact (eq_trans (R2 D) eq_refl).
Defined.


Lemma quiz_checks_loaded_video_witness :
  Video.reachable sample_answered /\
  exists q1,
    Video.check_click sample_answered = ok q1 /\
    Video.resultDiv_className q1 = "result correct".
Proof.
  assert (Hr : Video.reachable sample_answered).
  { apply Video.reach_type.
    apply (Video.reach_init sample_quiz); reflexivity. }
  split; [exact Hr|].
  destruct (quiz_checks_loaded_video sample_answered Hr)
    as (it & q1 & q2 & Hit & _ & Hc & _ & Hiff & _).
  exists q1. split; [exact Hc|].
  apply Hiff. cbn in Hit. injection Hit as <-. reflexivity.
Defined.

Lemma check_ignores_case_and_padding_witness :
  Video.verdict_for " Comer  " sample_answered =
  Video.verdict_for "Comer" sample_answered /\
  Video.verdict_for "comer" sample_answered =
  Video.verdict_for "Comer" sample_answered.
Proof.
  exact (check_ignores_case_and_padding "Comer" " " "  " sample_answered
           eq_refl eq_refl).
Defined.

Lemma check_click_only_reports_witness :
  exists q1,
    Video.check_click sample_answered = ok q1 /\
    Video.answerInput_value q1 = " Comer " /\
    Video.check_click q1 = ok q1.
Proof.
  eexists. split; [reflexivity|].
  destruct (check_click_only_reports sample_answered _ eq_refl)
    as (_ & _ & _ & _ & Ha & Hc).
  split; [exact Ha | exact Hc].
Defined.

Lemma next_video_cycles_witness :
  Video.reachable sample_answered /\
  exists q1 q2,
    Video.next_times 1 sample_answered = ok q1 /\
    Video.next_times 2 sample_answered = ok q2 /\
    Video.video_src q1 <> Video.video_src sample_answered /\
    Video.video_src q2 <> Video.video_src sample_answered /\
    Video.video_src q1 <> Video.video_src q2.
Proof.
  assert (Hr : Video.reachable sample_answered).
  { apply Video.reach_type.
    apply (Video.reach_init sample_quiz); reflexivity. }
  split; [exact Hr|].
  exact (proj2 (proj2 (next_video_cycles sample_answered Hr))).
Defined.

Lemma word_index_in_list_witness :
  (0 <= Speech.currentWordIndex sample_panel < 8)%Z /\
  Speech.word_at
    (Speech.currentWordIndex
       (Speech.run [Speech.click_next_word; Speech.click_speak]
          sample_panel)) =
  Some (Speech.wordDisplay_textContent
          (Speech.run [Speech.click_next_word; Speech.click_speak]
             sample_panel)).
Proof.
  assert (H : (0 <= Speech.currentWordIndex sample_panel < 8)%Z)
    by (cbn; lia).
  split; [exact H|].
  pose proof (word_index_in_list
                [Speech.click_next_word; Speech.click_speak]
                sample_panel H) as R.
  cbv zeta in R. destruct R as (_ & R & _).
  apply R. left. reflexivity.
Defined.

Lemma recognition_outcome_witness :
  Speech.result_className
    (Speech.run [Speech.recognition_start; Speech.recognition_result "Manzana";
                 Speech.recognition_end]
       (Speech.setup true sample_panel)) = "result correct".
Proof.
  pose proof (recognition_outcome (Speech.setup true sample_panel)
                (Speech.mkRecognition "es-ES" false false) "Manzana"
                eq_refl) as R.
  cbv zeta in R. destruct R as (_ & _ & _ & _ & _ & _ & _ & R & _).
  apply R. reflexivity.
Defined.

Lemma speech_unsupported_witness :
  Speech.starts
    (Speech.run [Speech.click_speak; Speech.recognition_start;
                 Speech.click_speak]
       (Speech.setup false sample_panel)) = 0%nat.
Proof.
  pose proof (speech_unsupported
                [Speech.click_speak; Speech.recognition_start;
                 Speech.click_speak]
                (Speech.setup false sample_panel) eq_refl) as R.
  cbv zeta in R. destruct R as (_ & R & _).
  exact R.
Defined.

Lemma sketch_session_witness :
  let s0 := exec (resize sample_PI sample_cos sample_sin)
              (mkState
                 (log_call (set_lineJoin "round")
                    (log_call (set_lineCap "round") sample_host))
                 2 "" 0) in
  let p0 := mkPage (mkSketch "" false false) sample_panel sample_quiz
              [("sketch-write", "click"); ("sketch-next", "click");
               ("window", "resize")] in
  let evs := [type_text "  hola "; click_write; resize_window] in
  initApp sample_PI sample_cos sample_sin canvas_2d sample_page sample_host
  = Started p0 s0 /\
  Str.trim
    (hintText
       (snd (page_run sample_PI sample_cos sample_sin evs (p0, s0)))) =
  hintText (snd (page_run sample_PI sample_cos sample_sin evs (p0, s0))).
Proof.
  cbv zeta.
  assert (H : initApp sample_PI sample_cos sample_sin canvas_2d sample_page
                sample_host
              = Started
                  (mkPage (mkSketch "" false false) sample_panel sample_quiz
                     [("sketch-write", "click"); ("sketch-next", "click");
                      ("window", "resize")])
                  (exec (resize sample_PI sample_cos sample_sin)
                     (mkState
                        (log_call (set_lineJoin "round")
                           (log_call (set_lineCap "round") sample_host))
                        2 "" 0)))
    by reflexivity.
  split; [exact H|].
  pose proof (sketch_session sample_PI sample_cos sample_sin canvas_2d
                sample_page _ sample_host _
                [type_text "  hola "; click_write; resize_window] H) as R.
  cbv zeta in R. destruct R as (R & _).
  exact R.
Defined.

Lemma DOMContentLoaded_without_canvas_witness :
  no_element <> canvas_2d /\
  exists e,
    DOMContentLoaded sample_PI sample_cos sample_sin no_element true
      sample_page sample_host
    = Failed e sample_page sample_host.
Proof.
  assert (Hne : no_element <> canvas_2d) by discriminate.
  split; [exact Hne|].
  destruct (DOMContentLoaded_without_canvas sample_PI sample_cos sample_sin
              no_element true sample_page sample_host Hne) as (e & H & _).
  exists e. exact H.
Defined.

(** ** A visit to the page, run on the sample page *)

(** The typed answer with blanks and a capital is accepted, and the message
    quotes it trimmed and in lower case. *)
Example scenario_quiz :
  Video.check_click sample_answered =
  ok (Video.mkQuiz 0 "media/comer.mp4" 1 "Play" " Comer "
        (Str.cat "Correct! The answer is "
           (Str.cat Str.quote (Str.cat "comer" Str.quote)))
        "result correct").
Proof. reflexivity. Qed.

(** The times of the display. *)
Example scenario_time :
  Video.updateTime 75.9 None = "1:15 / 0:00" /\
  Video.updateTime 5 (Some 3725.2) = "0:05 / 62:05".
Proof. split; reflexivity. Qed.
